(** * tree_menu: a database-backed tree menu rendered by one template tag

    Shallow embedding of [tree_menu/models.py] (the [Menu] and [MenuItem]
    models and [MenuItem.get_url]) and of
    [tree_menu/templatetags/menu_tags.py] ([draw_menu], [build_menu_tree],
    [find_active_item], [get_active_path], [render_menu_level]).

    Conventions of the embedding:
    - a Python [str] is a [string]; the empty string is falsy;
    - a primary key is a [Z]; [parent_id] is an [option Z] ([None] is
      Python's [None]);
    - the dictionary built by [build_menu_tree] is a [gmap (option Z) _],
      the set built by [get_active_path] is a [gset Z];
    - the database is a pair of tables; every query that reaches it is
      counted, so that the number of queries of a call can be stated;
    - recursion and loops that Python does not bound are given a fuel
      argument; running out of fuel is a separate outcome, never a result. *)

From stdpp Require Import gmap strings list sorting pretty.

Set Warnings "-register-all".

Open Scope string_scope.
Open Scope Z_scope.
Open Scope list_scope.

(** ** Characters and literals used by the markup *)

Definition nl : string := String (Ascii.ascii_of_nat 10) EmptyString.
Definition dq : string := String (Ascii.ascii_of_nat 34) EmptyString.

(** Python truthiness of a [str]. *)
Definition truthy (s : string) : bool :=
  match s with EmptyString => false | String _ _ => true end.

(** ** models.py *)

(** A row of the [Menu] table. *)
Record Menu := mkMenu {
  menu_pk : Z;
  name : string;
  slug : string
}.

(** A row of the [MenuItem] table: the columns of the model. *)
Record Row := mkRow {
  r_id : Z;
  r_menu_id : Z;
  r_parent_id : option Z;
  r_title : string;
  r_url : string;
  r_named_url : string;
  r_order : Z
}.

(** A [MenuItem] instance in memory: the column values and the cache of
    the [parent] relation.  [parent_cache] is [None] while the relation has
    not been loaded, [Some None] when it is known to be empty and
    [Some (Some p)] when the instance [p] is attached. *)
Inductive MenuItem := mkMenuItem {
  id : Z;
  menu_id : Z;
  parent_id : option Z;
  title : string;
  url : string;
  named_url : string;
  order : Z;
  parent_cache : option (option MenuItem)
}.

Definition of_row (r : Row) (c : option (option MenuItem)) : MenuItem :=
  mkMenuItem (r_id r) (r_menu_id r) (r_parent_id r) (r_title r) (r_url r)
             (r_named_url r) (r_order r) c.

Section UrlResolver.

(** [django.urls.reverse] for a name without arguments: [Some path], or
    [None] for the exception [NoReverseMatch]. *)
Variable reverse : string → option string.

(** [MenuItem.get_url]: the [try]/[except NoReverseMatch: pass] falls
    through to the last line. *)
Definition get_url (self : MenuItem) : string :=
  let fallback := if truthy (url self) then url self else "#" in
  if truthy (named_url self) then
    match reverse (named_url self) with
    | Some resolved => resolved
    | None => fallback
    end
  else fallback.

(** ** menu_tags.py: find_active_item *)

Fixpoint find_active_item (menu_items : list MenuItem) (current_path : string)
  : option MenuItem :=
  match menu_items with
  | [] => None
  | item :: rest =>
      if String.eqb (get_url item) current_path then Some item
      else find_active_item rest current_path
  end.

(** ** menu_tags.py: build_menu_tree *)

(** One pass over the items; [menu_dict[parent_id].append(item)] after the
    bucket has been created when missing. *)
Definition build_menu_tree (menu_items : list MenuItem)
  : gmap (option Z) (list MenuItem) :=
  foldl (λ (menu_dict : gmap (option Z) (list MenuItem)) item,
           let parent_id := parent_id item in
           let menu_dict :=
             match menu_dict !! parent_id with
             | None => <[parent_id := []]> menu_dict
             | Some _ => menu_dict
             end in
           alter (λ bucket, bucket ++ [item]) parent_id menu_dict)
        ∅ menu_items.

(** ** menu_tags.py: render_menu_level *)

(** The format strings of the renderer. *)
Definition ul_open (level : nat) : string :=
  "<ul class=" +:+ dq +:+ "menu-level-" +:+ pretty level +:+ dq +:+ ">" +:+ nl.

Definition li_open (css_class : string) : string :=
  "  <li class=" +:+ dq +:+ css_class +:+ dq +:+ ">" +:+ nl.

Definition anchor (href text : string) : string :=
  "    <a href=" +:+ dq +:+ href +:+ dq +:+ ">" +:+ text +:+ "</a>" +:+ nl.

Definition hidden (children_html : string) : string :=
  "<div style=" +:+ dq +:+ "display:none;" +:+ dq +:+ ">" +:+ nl
    +:+ children_html +:+ "</div>" +:+ nl.

(** [is_active]: [active_item and item.id == active_item.id]. *)
Definition is_active (active_item : option MenuItem) (item : MenuItem) : bool :=
  match active_item with
  | Some a => bool_decide (id item = id a)
  | None => false
  end.

(** [is_in_path]: [item.id in active_path]. *)
Definition is_in_path (active_path : gset Z) (item : MenuItem) : bool :=
  bool_decide (id item ∈ active_path).

(** [is_child_of_active]:
    [active_item and item.parent_id == active_item.id]. *)
Definition is_child_of_active (active_item : option MenuItem) (item : MenuItem)
  : bool :=
  match active_item with
  | Some a => bool_decide (parent_id item = Some (id a))
  | None => false
  end.

(** The body of the [for item in items] loop: [html] is the accumulator,
    [children] is the recursive call for the subtree under a given id. *)
Definition render_item (children : Z → option string)
    (active_item : option MenuItem) (active_path : gset Z)
    (html : string) (item : MenuItem) : option string :=
  let css_class := if is_active active_item item then "active" else EmptyString in
  let html := html +:+ li_open css_class in
  let html := html +:+ anchor (get_url item) (title item) in
  match children (id item) with
  | None => None
  | Some children_html =>
      let html :=
        if truthy children_html then
          let should_show :=
            is_in_path active_path item || is_child_of_active active_item item in
          if should_show then html +:+ children_html
          else html +:+ hidden children_html
        else html in
      Some (html +:+ ("  </li>" +:+ nl))
  end.

Fixpoint render_items (children : Z → option string)
    (active_item : option MenuItem) (active_path : gset Z)
    (items : list MenuItem) (html : string) : option string :=
  match items with
  | [] => Some html
  | item :: rest =>
      match render_item children active_item active_path html item with
      | None => None
      | Some html' => render_items children active_item active_path rest html'
      end
  end.

(** [fuel] bounds the depth of the recursion; [None] stands for a call
    that needs more of it. *)
Fixpoint render_menu_level (fuel : nat)
    (menu_dict : gmap (option Z) (list MenuItem)) (parent_id : option Z)
    (active_item : option MenuItem) (active_path : gset Z) (level : nat)
  : option string :=
  match fuel with
  | O => None
  | S fuel' =>
      let items := default [] (menu_dict !! parent_id) in
      match items with
      | [] => Some EmptyString
      | _ :: _ =>
          match render_items
                  (λ pk, render_menu_level fuel' menu_dict (Some pk)
                                           active_item active_path (S level))
                  active_item active_path items (ul_open level) with
          | None => None
          | Some html => Some (html +:+ ("</ul>" +:+ nl))
          end
      end
  end.

End UrlResolver.

(** ** The database and the part of Django's ORM that the tag relies on *)

(** The two tables.  [item_table] lists the rows in insertion order. *)
Record Database := mkDatabase {
  menu_table : list Menu;
  item_table : list Row
}.

(** What a call can end in: a value, an exception, or a computation that
    the given fuel did not finish.  The first two carry the number of
    queries sent to the database so far. *)
Inductive Exception := DoesNotExist.

Inductive outcome (A : Type) :=
| Returned (a : A) (queries : nat)
| Raised (e : Exception) (queries : nat)
| OutOfFuel.
Arguments Returned {A} a queries.
Arguments Raised {A} e queries.
Arguments OutOfFuel {A}.

(** [MenuItem.objects.get(pk=...)], without the query count. *)
Definition get_row (db : Database) (pk : Z) : option Row :=
  find (λ r, bool_decide (r_id r = pk)) (item_table db).

(** [filter(menu__slug=menu_slug)]: the row's menu has that slug. *)
Definition in_menu (db : Database) (menu_slug : string) (r : Row) : Prop :=
  Exists (λ m, menu_pk m = r_menu_id r ∧ slug m = menu_slug) (menu_table db).

#[global] Instance in_menu_dec db menu_slug r : Decision (in_menu db menu_slug r).
Proof. unfold in_menu. apply _. Defined.

(** [Meta.ordering = ['order', 'id']]. *)
Definition row_le (a b : Row) : Prop :=
  r_order a < r_order b ∨ (r_order a = r_order b ∧ r_id a ≤ r_id b).

#[global] Instance row_le_dec : RelDecision row_le.
Proof. intros a b. unfold row_le. apply _. Defined.

(** [select_related('parent')]: the query joins the parent row once, so
    each returned instance has its [parent] attached; the attached
    instance is built from the joined columns only, and its own [parent]
    is not loaded.  A null or unmatched foreign key attaches [None].  The
    [menu] relation is joined as well; the tag never reads it, and it is
    left out of the instances. *)
Definition joined_parent (db : Database) (r : Row) : option MenuItem :=
  match r_parent_id r with
  | None => None
  | Some pk => (λ rp, of_row rp None) <$> get_row db pk
  end.

(** The evaluated queryset
    [MenuItem.objects.filter(menu__slug=menu_slug).select_related('menu', 'parent')]:
    the instances of the menu's rows, in the model's default ordering.
    Evaluating it is one query. *)
Definition fetch_items (db : Database) (menu_slug : string) : list MenuItem :=
  (λ r, of_row r (Some (joined_parent db r)))
    <$> merge_sort row_le (filter (in_menu db menu_slug) (item_table db)).

(** Reading [current.parent] (Django's forward foreign-key descriptor):
    a loaded relation is returned as it is; otherwise a null [parent_id]
    gives [None] without a query, and a non-null one sends
    [get(pk=parent_id)] to the database. *)
Definition parent (db : Database) (current : MenuItem) (queries : nat)
  : outcome (option MenuItem) :=
  match parent_cache current with
  | Some rel => Returned rel queries
  | None =>
      match parent_id current with
      | None => Returned None queries
      | Some pk =>
          match get_row db pk with
          | Some r => Returned (Some (of_row r None)) (S queries)
          | None => Raised DoesNotExist (S queries)
          end
      end
  end.

(** ** menu_tags.py: get_active_path *)

(** The [while current:] loop; one unit of fuel per iteration. *)
Fixpoint get_active_path_loop (fuel : nat) (db : Database) (path : gset Z)
    (current : option MenuItem) (queries : nat) : outcome (gset Z) :=
  match current with
  | None => Returned path queries
  | Some cur =>
      match fuel with
      | O => OutOfFuel
      | S fuel' =>
          let path := path ∪ {[ id cur ]} in
          match parent db cur queries with
          | Returned next queries => get_active_path_loop fuel' db path next queries
          | Raised e queries => Raised e queries
          | OutOfFuel => OutOfFuel
          end
      end
  end.

Definition get_active_path (fuel : nat) (db : Database) (item : option MenuItem)
    (queries : nat) : outcome (gset Z) :=
  get_active_path_loop fuel db ∅ item queries.

(** ** menu_tags.py: draw_menu *)

Record HttpRequest := mkRequest { path : string }.

(** What the tag hands to the template engine: a plain [str] or a string
    marked safe by [mark_safe]. *)
Inductive TemplateValue :=
| Str (s : string)
| SafeString (s : string).

(** [request = context.get('request')] and
    [current_path = request.path if request else '']. *)
Definition current_path (context : option HttpRequest) : string :=
  match context with
  | Some request => path request
  | None => EmptyString
  end.

Section Tag.

Variable reverse : string → option string.

(** [context] is [context.get('request')]. *)
Definition draw_menu (fuel : nat) (db : Database) (context : option HttpRequest)
    (menu_slug : string) (queries : nat) : outcome TemplateValue :=
  let current_path := current_path context in
  (* [not menu_items] evaluates the lazy queryset, which keeps its rows:
     the loops over [menu_items] below read them without a new query *)
  let menu_items := fetch_items db menu_slug in
  let queries := S queries in
  match menu_items with
  | [] => Returned (Str EmptyString) queries
  | _ :: _ =>
      let menu_dict := build_menu_tree menu_items in
      let active_item := find_active_item reverse menu_items current_path in
      let active_path :=
        match active_item with
        | Some _ => get_active_path fuel db active_item queries
        | None => Returned ∅ queries
        end in
      match active_path with
      | Returned active_path queries =>
          match render_menu_level reverse fuel menu_dict None
                                  active_item active_path 0 with
          | Some html => Returned (SafeString html) queries
          | None => OutOfFuel
          end
      | Raised e queries => Raised e queries
      | OutOfFuel => OutOfFuel
      end
  end.

End Tag.

(** ** The project's routes and the menu of the test suite *)

(** [reverse] for the names of [tree_menu/urls.py], included at the root by
    [config/urls.py].  [service_detail] takes an argument, so reversing the
    bare name fails like an unknown name does. *)
Definition reverse_urls (viewname : string) : option string :=
  if decide (viewname = "home") then Some "/"
  else if decide (viewname = "about") then Some "/about/"
  else if decide (viewname = "services") then Some "/services/"
  else if decide (viewname = "contact") then Some "/contact/"
  else None.

(** The rows created by [MenuTagTest.setUp] in [tests.py], in creation
    order, with the keys an empty database assigns. *)
Definition test_db : Database :=
  mkDatabase
    [ mkMenu 1 "Главное меню" "main_menu" ]
    [ mkRow 1 1 None "Главная" "/" EmptyString 0;
      mkRow 2 1 None "Услуги" "/services/" EmptyString 1;
      mkRow 3 1 None "О нас" "/about/" EmptyString 2;
      mkRow 4 1 (Some 2) "Веб-разработка" "/services/web/" EmptyString 0;
      mkRow 5 1 (Some 2) "Мобильные приложения" "/services/mobile/" EmptyString 1;
      mkRow 6 1 (Some 4) "Веб-дизайн" "/services/web/design/" EmptyString 0 ].

(** ** Vocabulary of the statements *)

(** The primary key of [MenuItem]: no two rows share an id. *)
Definition pk_unique (db : Database) : Prop := NoDup (r_id <$> item_table db).

(** [loaded db r o]: the instance [o] holds the columns of the row [r] of
    the table, and whatever is attached to it as [parent] was itself loaded
    from the row the foreign key names.  Instances returned by a query, by
    [select_related] or by a lazy read of [parent] are of this kind. *)
Inductive loaded (db : Database) : Row → MenuItem → Prop :=
| loaded_lazy r :
    r ∈ item_table db → loaded db r (of_row r None)
| loaded_root r :
    r ∈ item_table db → r_parent_id r = None → loaded db r (of_row r (Some None))
| loaded_join r rp p :
    r ∈ item_table db → r_parent_id r = Some (r_id rp) → loaded db rp p →
    loaded db r (of_row r (Some (Some p))).

(** [parent_chain db [c; b; a; root]]: rows of the table, each the parent of
    the one before it, ending in a row without parent. *)
Inductive parent_chain (db : Database) : list Row → Prop :=
| chain_root r :
    r ∈ item_table db → r_parent_id r = None → parent_chain db [r]
| chain_step r rp rest :
    r ∈ item_table db → r_parent_id r = Some (r_id rp) →
    parent_chain db (rp :: rest) → parent_chain db (r :: rp :: rest).

(** The model's ordering, on instances. *)
Definition item_le (a b : MenuItem) : Prop :=
  order a < order b ∨ (order a = order b ∧ id a ≤ id b).

(** The key under which [build_menu_tree] files an item. *)
Definition bucket_of (menu_items : list MenuItem) (key : option Z) : list MenuItem :=
  filter (λ item, parent_id item = key) menu_items.

(** An item of the fetched list is orphaned when its parent id names no
    item of the list, or names an orphaned one. *)
Inductive orphaned (menu_items : list MenuItem) : MenuItem → Prop :=
| orphaned_dangling item pk :
    item ∈ menu_items → parent_id item = Some pk →
    (∀ other, other ∈ menu_items → id other ≠ pk) →
    orphaned menu_items item
| orphaned_descendant item up :
    item ∈ menu_items → up ∈ menu_items → parent_id item = Some (id up) →
    orphaned menu_items up →
    orphaned menu_items item.

(** A descent of the tree: items of the list, the first filed under [key],
    each next one filed under the id of the one before. *)
Inductive descent (menu_items : list MenuItem) : option Z → list MenuItem → Prop :=
| descent_nil key : descent menu_items key []
| descent_cons key item rest :
    item ∈ menu_items → parent_id item = key →
    descent menu_items (Some (id item)) rest →
    descent menu_items key (item :: rest).

(** The number of ancestors of an item within the list. *)
Inductive depth (menu_items : list MenuItem) : MenuItem → nat → Prop :=
| depth_root item :
    item ∈ menu_items → parent_id item = None → depth menu_items item 0
| depth_child item up n :
    item ∈ menu_items → up ∈ menu_items → parent_id item = Some (id up) →
    depth menu_items up n → depth menu_items item (S n).

(** [s] occurs in [t]. *)
Definition occurs_in (s t : string) : Prop := ∃ before after, t = before +:+ s +:+ after.

(** The concatenation of a list of strings. *)
Definition sconcat (parts : list string) : string :=
  foldr String.append EmptyString parts.

(** The closing tag of a list entry. *)
Definition li_close : string := "  </li>" +:+ nl.

(** The markup that follows the anchor of an entry: nothing when the
    subtree is empty, the subtree when it is shown, the subtree inside the
    hidden container otherwise. *)
Definition subtree_markup (shown : bool) (children_html : string) : string :=
  if truthy children_html then
    if shown then children_html else hidden children_html
  else EmptyString.

(** The markup of one list entry, given the markup of its subtree. *)
Definition entry_markup (reverse : string → option string)
    (active_item : option MenuItem) (active_path : gset Z)
    (item : MenuItem) (children_html : string) : string :=
  li_open (if is_active active_item item then "active" else EmptyString)
  +:+ anchor (get_url reverse item) (title item)
  +:+ subtree_markup
        (is_in_path active_path item || is_child_of_active active_item item)
        children_html
  +:+ li_close.

(** The expansion rule, as a proposition. *)
Definition expanded (active_item : option MenuItem) (active_path : gset Z)
    (item : MenuItem) : Prop :=
  id item ∈ active_path
  ∨ ∃ active, active_item = Some active ∧ parent_id item = Some (id active).

(** ** Further databases used as examples *)

(** The instances that the menu query returns for [test_db], in the order
    of the queryset. *)
Definition test_home : MenuItem :=
  of_row (mkRow 1 1 None "Главная" "/" EmptyString 0) (Some None).
Definition test_services : MenuItem :=
  of_row (mkRow 2 1 None "Услуги" "/services/" EmptyString 1) (Some None).
Definition test_about : MenuItem :=
  of_row (mkRow 3 1 None "О нас" "/about/" EmptyString 2) (Some None).
Definition test_web : MenuItem :=
  of_row (mkRow 4 1 (Some 2) "Веб-разработка" "/services/web/" EmptyString 0)
         (Some (Some (of_row (mkRow 2 1 None "Услуги" "/services/" EmptyString 1)
                             None))).
Definition test_mobile : MenuItem :=
  of_row (mkRow 5 1 (Some 2) "Мобильные приложения" "/services/mobile/"
                EmptyString 1)
         (Some (Some (of_row (mkRow 2 1 None "Услуги" "/services/" EmptyString 1)
                             None))).
Definition test_design : MenuItem :=
  of_row (mkRow 6 1 (Some 4) "Веб-дизайн" "/services/web/design/" EmptyString 0)
         (Some (Some (of_row (mkRow 4 1 (Some 2) "Веб-разработка" "/services/web/"
                                    EmptyString 0) None))).
Definition test_items : list MenuItem :=
  [ test_home; test_web; test_design; test_services; test_mobile; test_about ].

(** The same rows, inserted in the opposite order. *)
Definition test_db_reversed : Database :=
  mkDatabase (menu_table test_db) (reverse (item_table test_db)).

(** Two items that name each other as parent, next to a regular root. *)
Definition cyclic_db : Database :=
  mkDatabase
    [ mkMenu 1 "Main" "main_menu" ]
    [ mkRow 1 1 None "Home" "/" EmptyString 0;
      mkRow 2 1 (Some 3) "Ping" "/ping/" EmptyString 1;
      mkRow 3 1 (Some 2) "Pong" "/pong/" EmptyString 2 ].

Definition ping : MenuItem :=
  of_row (mkRow 2 1 (Some 3) "Ping" "/ping/" EmptyString 1)
         (Some (Some (of_row (mkRow 3 1 (Some 2) "Pong" "/pong/" EmptyString 2) None))).

Definition pong : MenuItem :=
  of_row (mkRow 3 1 (Some 2) "Pong" "/pong/" EmptyString 2)
         (Some (Some (of_row (mkRow 2 1 (Some 3) "Ping" "/ping/" EmptyString 1) None))).

(** A chain of four levels with an unrelated sibling. *)
Definition row_root : Row := mkRow 1 1 None "Root" "/" EmptyString 0.
Definition row_a : Row := mkRow 2 1 (Some 1) "A" "/a/" EmptyString 0.
Definition row_b : Row := mkRow 3 1 (Some 2) "B" "/a/b/" EmptyString 0.
Definition row_c : Row := mkRow 4 1 (Some 3) "C" "/a/b/c/" EmptyString 0.
Definition row_sibling : Row := mkRow 5 1 (Some 1) "Sibling" "/s/" EmptyString 1.

Definition chain_db : Database :=
  mkDatabase [ mkMenu 1 "Main" "main_menu" ]
             [ row_root; row_a; row_b; row_c; row_sibling ].

Definition item_c : MenuItem := of_row row_c (Some (Some (of_row row_b None))).

(** Two menus; an item of the first one has its parent in the second. *)
Definition cross_menu_db : Database :=
  mkDatabase
    [ mkMenu 1 "Main" "main_menu"; mkMenu 2 "Footer" "footer_menu" ]
    [ mkRow 1 1 None "Home" "/" EmptyString 0;
      mkRow 2 2 None "Legal" "/legal/" EmptyString 0;
      mkRow 3 1 (Some 2) "Stray" "/stray/" EmptyString 1;
      mkRow 4 1 (Some 3) "Below" "/stray/below/" EmptyString 0 ].

Definition home_item : MenuItem :=
  of_row (mkRow 1 1 None "Home" "/" EmptyString 0) (Some None).
Definition stray_item : MenuItem :=
  of_row (mkRow 3 1 (Some 2) "Stray" "/stray/" EmptyString 1)
         (Some (Some (of_row (mkRow 2 2 None "Legal" "/legal/" EmptyString 0) None))).
Definition below_item : MenuItem :=
  of_row (mkRow 4 1 (Some 3) "Below" "/stray/below/" EmptyString 0)
         (Some (Some (of_row (mkRow 3 1 (Some 2) "Stray" "/stray/" EmptyString 1) None))).

(** A title with markup characters. *)
Definition markup_db : Database :=
  mkDatabase
    [ mkMenu 1 "Main" "main_menu" ]
    [ mkRow 1 1 None "<b>Home</b> & more" "/?a=1&b=2" EmptyString 0 ].

(** ** management/commands/create_demo_menu.py *)

(** The database together with the key sequences of its two tables: a new
    row takes the next key, and keys are not reused. *)
Record Store := mkStore {
  store_db : Database;
  next_menu_pk : Z;
  next_item_pk : Z
}.

(** What a management command works on: the store and the lines written to
    [self.stdout] so far. *)
Record Env := mkEnv {
  env_store : Store;
  env_stdout : list string
}.

Definition Command (A : Type) : Type := Env → A * Env.

#[global] Instance command_ret : MRet Command := λ A x env, (x, env).
#[global] Instance command_bind : MBind Command :=
  λ A B f c env, let '(x, env') := c env in f x env'.

(** [self.stdout.write(msg)]. *)
Definition stdout_write (msg : string) : Command unit :=
  λ env, (tt, mkEnv (env_store env) (env_stdout env ++ [msg])).

(** [Menu.objects.get_or_create(slug=..., defaults={'name': ...})]: the menu
    with that slug when there is one, else a new row. *)
Definition Menu_get_or_create (slug_ name_ : string) : Command (Menu * bool) :=
  λ env,
    let store := env_store env in
    let db := store_db store in
    match find (λ m, bool_decide (slug m = slug_)) (menu_table db) with
    | Some m => ((m, false), env)
    | None =>
        let m := mkMenu (next_menu_pk store) name_ slug_ in
        ((m, true),
         mkEnv (mkStore (mkDatabase (menu_table db ++ [m]) (item_table db))
                        (next_menu_pk store + 1) (next_item_pk store))
               (env_stdout env))
    end.

(** The rows that go when the rows with the ids [doomed] go: [parent] is
    declared with [on_delete=CASCADE], so each round adds the rows whose
    parent is already doomed. *)
Definition parent_in (doomed : gset Z) (r : Row) : Prop :=
  match r_parent_id r with
  | Some pk => pk ∈ doomed
  | None => False
  end.

#[global] Instance parent_in_dec doomed r : Decision (parent_in doomed r).
Proof. unfold parent_in. destruct (r_parent_id r); apply _. Defined.

Fixpoint cascade (rounds : nat) (table : list Row) (doomed : gset Z) : gset Z :=
  match rounds with
  | O => doomed
  | S rounds' =>
      let children := filter (parent_in doomed) table in
      cascade rounds' table (doomed ∪ list_to_set (r_id <$> children))
  end.

(** [MenuItem.objects.filter(menu=menu).delete()]. *)
Definition MenuItem_delete_of_menu (menu : Menu) : Command unit :=
  λ env,
    let store := env_store env in
    let db := store_db store in
    let table := item_table db in
    let seeds := filter (λ r, r_menu_id r = menu_pk menu) table in
    let doomed := cascade (length table) table (list_to_set (r_id <$> seeds)) in
    (tt,
     mkEnv (mkStore (mkDatabase (menu_table db)
                                (filter (λ r, r_id r ∉ doomed) table))
                    (next_menu_pk store) (next_item_pk store))
           (env_stdout env)).

(** [MenuItem.objects.create(menu=..., parent=..., title=..., url=...,
    named_url=..., order=...)]; the fields left out in a call take their
    defaults (no parent, empty strings). *)
Definition MenuItem_create (menu : Menu) (parent : option MenuItem)
    (title_ url_ named_url_ : string) (order_ : Z) : Command MenuItem :=
  λ env,
    let store := env_store env in
    let db := store_db store in
    let r := mkRow (next_item_pk store) (menu_pk menu) (id <$> parent)
                   title_ url_ named_url_ order_ in
    (of_row r (Some parent),
     mkEnv (mkStore (mkDatabase (menu_table db) (item_table db ++ [r]))
                    (next_menu_pk store) (next_item_pk store + 1))
           (env_stdout env)).

(** [MenuItem.objects.filter(menu=menu).count()]. *)
Definition MenuItem_count_of_menu (menu : Menu) : Command nat :=
  λ env,
    (length (filter (λ r, r_menu_id r = menu_pk menu)
                    (item_table (store_db (env_store env)))),
     env).

Section DemoCommand.

(** [self.style.SUCCESS] and [self.style.WARNING]: how a message is
    coloured depends on the terminal. *)
Variable style_SUCCESS style_WARNING : string → string.

(** [Command.handle]. *)
Definition handle : Command unit :=
  _ ← stdout_write "Создание демонстрационного меню...";
  '(main_menu, created) ← Menu_get_or_create "main_menu" "Главное меню";
  _ ← (if created : bool then
         stdout_write (style_SUCCESS
                         ("✓ Создано меню " +:+ dq +:+ "Главное меню" +:+ dq))
       else
         _ ← stdout_write (style_WARNING
                             ("⚠ Меню " +:+ dq +:+ "Главное меню" +:+ dq
                              +:+ " уже существует"));
         _ ← MenuItem_delete_of_menu main_menu;
         stdout_write "  Старые пункты меню удалены");
  home ← MenuItem_create main_menu None "Главная" EmptyString "home" 0;
  _ ← stdout_write ("  ✓ Создан пункт " +:+ dq +:+ "Главная" +:+ dq);
  about ← MenuItem_create main_menu None "О нас" EmptyString "about" 1;
  _ ← stdout_write ("  ✓ Создан пункт " +:+ dq +:+ "О нас" +:+ dq);
  services ← MenuItem_create main_menu None "Услуги" EmptyString "services" 2;
  _ ← stdout_write ("  ✓ Создан пункт " +:+ dq +:+ "Услуги" +:+ dq);
  contact ← MenuItem_create main_menu None "Контакты" EmptyString "contact" 3;
  _ ← stdout_write ("  ✓ Создан пункт " +:+ dq +:+ "Контакты" +:+ dq);
  web_dev ← MenuItem_create main_menu (Some services) "Веб-разработка"
                            "/services/web-development/" EmptyString 0;
  _ ← stdout_write ("    ✓ Создан подпункт " +:+ dq +:+ "Веб-разработка" +:+ dq);
  mobile_dev ← MenuItem_create main_menu (Some services) "Мобильные приложения"
                               "/services/mobile-apps/" EmptyString 1;
  _ ← stdout_write ("    ✓ Создан подпункт " +:+ dq +:+ "Мобильные приложения"
                    +:+ dq);
  consulting ← MenuItem_create main_menu (Some services) "Консалтинг"
                               "/services/consulting/" EmptyString 2;
  _ ← stdout_write ("    ✓ Создан подпункт " +:+ dq +:+ "Консалтинг" +:+ dq);
  support ← MenuItem_create main_menu (Some services) "Поддержка"
                            "/services/support/" EmptyString 3;
  _ ← stdout_write ("    ✓ Создан подпункт " +:+ dq +:+ "Поддержка" +:+ dq);
  frontend ← MenuItem_create main_menu (Some web_dev) "Frontend разработка"
                             "/services/frontend/" EmptyString 0;
  _ ← stdout_write ("      ✓ Создан подпункт 3-го уровня " +:+ dq
                    +:+ "Frontend разработка" +:+ dq);
  backend ← MenuItem_create main_menu (Some web_dev) "Backend разработка"
                            "/services/backend/" EmptyString 1;
  _ ← stdout_write ("      ✓ Создан подпункт 3-го уровня " +:+ dq
                    +:+ "Backend разработка" +:+ dq);
  main_count ← MenuItem_count_of_menu main_menu;
  _ ← stdout_write (style_SUCCESS
                      (nl +:+ "✅ Демонстрационное меню успешно создано!"));
  _ ← stdout_write ("   Создано пунктов: " +:+ pretty main_count);
  stdout_write (nl +:+ "Теперь откройте http://127.0.0.1:8000/ для просмотра").

End DemoCommand.

(** The ten rows that [handle] creates for the menu with key [menu] when
    the item sequence stands at [first]. *)
Definition demo_rows (menu first : Z) : list Row :=
  [ mkRow first menu None "Главная" EmptyString "home" 0;
    mkRow (first + 1) menu None "О нас" EmptyString "about" 1;
    mkRow (first + 2) menu None "Услуги" EmptyString "services" 2;
    mkRow (first + 3) menu None "Контакты" EmptyString "contact" 3;
    mkRow (first + 4) menu (Some (first + 2)) "Веб-разработка"
          "/services/web-development/" EmptyString 0;
    mkRow (first + 5) menu (Some (first + 2)) "Мобильные приложения"
          "/services/mobile-apps/" EmptyString 1;
    mkRow (first + 6) menu (Some (first + 2)) "Консалтинг"
          "/services/consulting/" EmptyString 2;
    mkRow (first + 7) menu (Some (first + 2)) "Поддержка"
          "/services/support/" EmptyString 3;
    mkRow (first + 8) menu (Some (first + 4)) "Frontend разработка"
          "/services/frontend/" EmptyString 0;
    mkRow (first + 9) menu (Some (first + 4)) "Backend разработка"
          "/services/backend/" EmptyString 1 ].

(** What the constraints of the schema give for a store: keys below the
    sequences, no key twice, every item in a menu of the table, and no two
    menus with one slug. *)
Record store_ok (store : Store) : Prop := mkStoreOk {
  ok_menu_pks : ∀ m, m ∈ menu_table (store_db store) → menu_pk m < next_menu_pk store;
  ok_item_pks : ∀ r, r ∈ item_table (store_db store) → r_id r < next_item_pk store;
  ok_item_unique : pk_unique (store_db store);
  ok_item_menu :
    ∀ r, r ∈ item_table (store_db store) →
         ∃ m, m ∈ menu_table (store_db store) ∧ menu_pk m = r_menu_id r;
  ok_menu_unique : NoDup (menu_pk <$> menu_table (store_db store));
  ok_slug_unique : NoDup (slug <$> menu_table (store_db store))
}.


(** [cross_menu_db] with its sequences: two menus, four items. *)
Definition cross_menu_store : Store := mkStore cross_menu_db 3 5.

(** The same rows with their keys given by position. *)
Definition demo_rows_of (menu : Z) (pk : nat → Z) : list Row :=
  [ mkRow (pk 0%nat) menu None "Главная" EmptyString "home" 0;
    mkRow (pk 1%nat) menu None "О нас" EmptyString "about" 1;
    mkRow (pk 2%nat) menu None "Услуги" EmptyString "services" 2;
    mkRow (pk 3%nat) menu None "Контакты" EmptyString "contact" 3;
    mkRow (pk 4%nat) menu (Some (pk 2%nat)) "Веб-разработка"
          "/services/web-development/" EmptyString 0;
    mkRow (pk 5%nat) menu (Some (pk 2%nat)) "Мобильные приложения"
          "/services/mobile-apps/" EmptyString 1;
    mkRow (pk 6%nat) menu (Some (pk 2%nat)) "Консалтинг"
          "/services/consulting/" EmptyString 2;
    mkRow (pk 7%nat) menu (Some (pk 2%nat)) "Поддержка"
          "/services/support/" EmptyString 3;
    mkRow (pk 8%nat) menu (Some (pk 4%nat)) "Frontend разработка"
          "/services/frontend/" EmptyString 0;
    mkRow (pk 9%nat) menu (Some (pk 4%nat)) "Backend разработка"
          "/services/backend/" EmptyString 1 ].

(** The lines that [handle] writes after the line about the menu. *)
Definition demo_report (style_SUCCESS : string → string) (main_count : nat)
  : list string :=
  [ "  ✓ Создан пункт " +:+ dq +:+ "Главная" +:+ dq;
    "  ✓ Создан пункт " +:+ dq +:+ "О нас" +:+ dq;
    "  ✓ Создан пункт " +:+ dq +:+ "Услуги" +:+ dq;
    "  ✓ Создан пункт " +:+ dq +:+ "Контакты" +:+ dq;
    "    ✓ Создан подпункт " +:+ dq +:+ "Веб-разработка" +:+ dq;
    "    ✓ Создан подпункт " +:+ dq +:+ "Мобильные приложения" +:+ dq;
    "    ✓ Создан подпункт " +:+ dq +:+ "Консалтинг" +:+ dq;
    "    ✓ Создан подпункт " +:+ dq +:+ "Поддержка" +:+ dq;
    "      ✓ Создан подпункт 3-го уровня " +:+ dq +:+ "Frontend разработка" +:+ dq;
    "      ✓ Создан подпункт 3-го уровня " +:+ dq +:+ "Backend разработка" +:+ dq;
    style_SUCCESS (nl +:+ "✅ Демонстрационное меню успешно создано!");
    "   Создано пунктов: " +:+ pretty main_count;
    nl +:+ "Теперь откройте http://127.0.0.1:8000/ для просмотра" ].

(** The items of a table that are left when the items of the menu with key
    [menu] are deleted. *)
Definition survivors (menu : Z) (table : list Row) : list Row :=
  filter (λ r, r_id r ∉ cascade (length table) table
                           (list_to_set (r_id <$> filter (λ r, r_menu_id r = menu)
                                                         table)))
         table.

(** A row is doomed when it belongs to the menu or its parent is doomed. *)
Inductive doomed_row (menu : Z) (table : list Row) : Row → Prop :=
| doomed_seed r :
    r ∈ table → r_menu_id r = menu → doomed_row menu table r
| doomed_child r rp :
    r ∈ table → r_parent_id r = Some (r_id rp) → doomed_row menu table rp →
    doomed_row menu table r.

(** * Properties *)

(** ** Strings *)

Lemma truthy_true s : truthy s = true ↔ s ≠ EmptyString.
Proof. by destruct s. Qed.

Lemma truthy_false s : truthy s = false ↔ s = EmptyString.
Proof. by destruct s. Qed.

Lemma sapp_nil_l s : EmptyString +:+ s = s.
Proof. reflexivity. Qed.

Lemma sapp_cons c s1 s2 : String c s1 +:+ s2 = String c (s1 +:+ s2).
Proof. reflexivity. Qed.

Lemma sapp_nil_r s : s +:+ EmptyString = s.
Proof. induction s as [|c s IH]; [done|]. by rewrite sapp_cons, IH. Qed.

Lemma sapp_assoc s1 s2 s3 : (s1 +:+ s2) +:+ s3 = s1 +:+ (s2 +:+ s3).
Proof.
  induction s1 as [|c s1 IH]; [done|]. by rewrite !sapp_cons, IH.
Qed.

Lemma sapp_length s1 s2 :
  String.length (s1 +:+ s2) = (String.length s1 + String.length s2)%nat.
Proof.
  induction s1 as [|c s1 IH]; [done|]. rewrite sapp_cons. simpl. by rewrite IH.
Qed.

Lemma occurs_in_app_l s t u : occurs_in s t → occurs_in s (t +:+ u).
Proof.
  intros (b & a & ->). exists b, (a +:+ u). by rewrite !sapp_assoc.
Qed.

Lemma occurs_in_app_r s t u : occurs_in s u → occurs_in s (t +:+ u).
Proof.
  intros (b & a & ->). exists (t +:+ b), a. by rewrite !sapp_assoc.
Qed.

Lemma occurs_in_refl s : occurs_in s s.
Proof. exists EmptyString, EmptyString. by rewrite sapp_nil_r. Qed.

(** ** get_url *)

Section UrlResolverFacts.

Variable reverse : string → option string.

(** C4. [get_url] returns the resolved named route when [named_url] is
    non-empty and resolves; when [named_url] is empty or does not resolve
    it returns [url] verbatim if that is non-empty and ["#"] otherwise.
    [NoReverseMatch] is [reverse] answering [None]: every case ends in a
    string, no failure leaves the method. *)
Theorem get_url_precedence (item : MenuItem) :
  (∀ resolved,
      named_url item ≠ EmptyString →
      reverse (named_url item) = Some resolved →
      get_url reverse item = resolved)
  ∧ (named_url item = EmptyString ∨ reverse (named_url item) = None →
     url item ≠ EmptyString →
     get_url reverse item = url item)
  ∧ (named_url item = EmptyString ∨ reverse (named_url item) = None →
     url item = EmptyString →
     get_url reverse item = "#").
Proof.
  unfold get_url. repeat split.
  - intros resolved Hn Hr. apply truthy_true in Hn. by rewrite Hn, Hr.
  - intros Hn Hu. apply truthy_true in Hu. rewrite Hu.
    destruct Hn as [Hn | Hn].
    + by rewrite Hn.
    + rewrite Hn. by destruct (truthy (named_url item)).
  - intros Hn Hu. rewrite Hu. simpl.
    destruct Hn as [Hn | Hn].
    + by rewrite Hn.
    + rewrite Hn. by destruct (truthy (named_url item)).
Qed.

(** The resolved URL is empty only if the resolver produced the empty
    string. *)
Lemma get_url_nonempty (item : MenuItem) :
  (∀ viewname resolved, reverse viewname = Some resolved → resolved ≠ EmptyString) →
  get_url reverse item ≠ EmptyString.
Proof.
  intros Hrev. unfold get_url.
  assert ((if truthy (url item) then url item else "#") ≠ EmptyString) as Hfb.
  { destruct (truthy (url item)) eqn:E; [by apply truthy_true | done]. }
  destruct (truthy (named_url item)); [|done].
  destruct (reverse (named_url item)) eqn:E; [by eapply Hrev | done].
Qed.

(** ** find_active_item *)

Lemma find_active_item_Some items current_path item :
  find_active_item reverse items current_path = Some item ↔
  ∃ before after,
    items = before ++ item :: after
    ∧ get_url reverse item = current_path
    ∧ Forall (λ other, get_url reverse other ≠ current_path) before.
Proof.
  induction items as [|x items IH]; simpl.
  - split; [done|]. intros (before & after & H & _). by destruct before.
  - destruct (String.eqb_spec (get_url reverse x) current_path) as [Heq | Hne].
    + split.
      * intros [= <-]. by exists [], items.
      * intros (before & after & H & Hu & Hb).
        destruct before as [|y before]; simplify_eq/=; [done|].
        by inversion Hb.
    + rewrite IH. split.
      * intros (before & after & -> & Hu & Hb).
        exists (x :: before), after. by repeat split; [|constructor].
      * intros (before & after & H & Hu & Hb).
        destruct before as [|y before]; simplify_eq/=.
        inversion Hb; subst. by exists before, after.
Qed.

Lemma find_active_item_None items current_path :
  find_active_item reverse items current_path = None ↔
  Forall (λ other, get_url reverse other ≠ current_path) items.
Proof.
  induction items as [|x items IH]; simpl.
  - by split.
  - destruct (String.eqb_spec (get_url reverse x) current_path) as [Heq | Hne].
    + split; [done|]. by inversion 1.
    + rewrite IH. split; [by constructor | by inversion 1].
Qed.

(** C5. [find_active_item] returns the first item, in the order of the
    sequence, whose resolved URL equals [current_path] as a string; it
    returns [None] exactly when no resolved URL equals it.  A template
    context without request gives the empty path, and no item matches the
    empty path, a resolved route never being the empty string. *)
Theorem find_active_item_first_exact_match
    (items : list MenuItem) (current : string) :
  (∀ item,
      find_active_item reverse items current = Some item ↔
      ∃ before after,
        items = before ++ item :: after
        ∧ get_url reverse item = current
        ∧ Forall (λ other, get_url reverse other ≠ current) before)
  ∧ (find_active_item reverse items current = None ↔
     Forall (λ other, get_url reverse other ≠ current) items)
  ∧ current_path None = EmptyString
  ∧ ((∀ viewname resolved,
         reverse viewname = Some resolved → resolved ≠ EmptyString) →
     find_active_item reverse items (current_path None) = None).
Proof.
  split; [|split; [|split]].
  - intros item. apply find_active_item_Some.
  - apply find_active_item_None.
  - done.
  - intros Hrev. apply find_active_item_None.
    apply Forall_forall. intros other _. by apply get_url_nonempty.
Qed.

End UrlResolverFacts.

Lemma reverse_urls_nonempty viewname resolved :
  reverse_urls viewname = Some resolved → resolved ≠ EmptyString.
Proof.
  unfold reverse_urls. repeat case_decide; by intros [= <-].
Qed.

(** With the project's routes: ["home"] resolves and wins over the explicit
    URL; ["service_detail"] does not resolve without its argument, so the
    explicit URL is used; with neither field set the link is ["#"]. *)
Lemma get_url_precedence_witness :
  get_url reverse_urls (mkMenuItem 1 1 None "Home" "/explicit/" "home" 0 None) = "/"
  ∧ get_url reverse_urls
      (mkMenuItem 2 1 None "Detail" "/explicit/" "service_detail" 0 None)
    = "/explicit/"
  ∧ get_url reverse_urls (mkMenuItem 3 1 None "Nothing" EmptyString EmptyString 0 None)
    = "#".
Proof.
  split; [|split].
  - apply (proj1 (get_url_precedence reverse_urls
                    (mkMenuItem 1 1 None "Home" "/explicit/" "home" 0 None)));
      [discriminate | reflexivity].
  - apply (proj1 (proj2 (get_url_precedence reverse_urls
                    (mkMenuItem 2 1 None "Detail" "/explicit/" "service_detail" 0 None))));
      [right; reflexivity | discriminate].
  - apply (proj2 (proj2 (get_url_precedence reverse_urls
                    (mkMenuItem 3 1 None "Nothing" EmptyString EmptyString 0 None))));
      [left; reflexivity | reflexivity].
Defined.

(** On the menu of the test suite, without request: no item is active. *)
Lemma find_active_item_first_exact_match_witness :
  find_active_item reverse_urls (fetch_items test_db "main_menu") (current_path None)
  = None.
Proof.
  apply (find_active_item_first_exact_match reverse_urls
           (fetch_items test_db "main_menu") EmptyString).
  apply reverse_urls_nonempty.
Defined.

(** The comparison is on the exact string: the path without the trailing
    slash, or with a query string, matches nothing. *)
Lemma find_active_item_no_normalization :
  id <$> find_active_item reverse_urls (fetch_items test_db "main_menu") "/about/"
  = Some 3
  ∧ find_active_item reverse_urls (fetch_items test_db "main_menu") "/about" = None
  ∧ find_active_item reverse_urls (fetch_items test_db "main_menu") "/about/?page=2"
    = None.
Proof. by vm_compute. Qed.

(** ** build_menu_tree *)

Lemma build_menu_tree_snoc (items : list MenuItem) (item : MenuItem) :
  build_menu_tree (items ++ [item]) =
  alter (λ bucket, bucket ++ [item]) (parent_id item)
        (match build_menu_tree items !! parent_id item with
         | None => <[parent_id item := []]> (build_menu_tree items)
         | Some _ => build_menu_tree items
         end).
Proof. unfold build_menu_tree. by rewrite foldl_app. Qed.

Lemma bucket_of_snoc (items : list MenuItem) (item : MenuItem) (key : option Z) :
  bucket_of (items ++ [item]) key =
  bucket_of items key ++ (if decide (parent_id item = key) then [item] else []).
Proof.
  unfold bucket_of. rewrite filter_app. f_equal.
Qed.

(** The dictionary holds, under each key, the items with that parent id in
    the order of the input, and has no empty bucket. *)
Lemma build_menu_tree_lookup (items : list MenuItem) (key : option Z) :
  build_menu_tree items !! key =
  match bucket_of items key with
  | [] => None
  | bucket => Some bucket
  end.
Proof.
  induction items as [|item items IH] using rev_ind; [done|].
  rewrite build_menu_tree_snoc, bucket_of_snoc.
  destruct (decide (parent_id item = key)) as [<- | Hne].
  - rewrite lookup_alter_eq. rewrite IH.
    destruct (bucket_of items (parent_id item)) as [|x bucket] eqn:E.
    + by rewrite lookup_insert_eq.
    + by rewrite IH.
  - rewrite lookup_alter_ne by done. rewrite app_nil_r.
    destruct (build_menu_tree items !! parent_id item); [done|].
    by rewrite lookup_insert_ne.
Qed.

Lemma build_menu_tree_get (items : list MenuItem) (key : option Z) :
  default [] (build_menu_tree items !! key) = bucket_of items key.
Proof.
  rewrite build_menu_tree_lookup. by destruct (bucket_of items key).
Qed.

(** ** render_menu_level *)

Lemma hidden_neq (children_html : string) : hidden children_html ≠ children_html.
Proof.
  intros H. apply (f_equal String.length) in H. unfold hidden in H.
  rewrite !sapp_length in H. simpl in H. lia.
Qed.

Lemma hidden_neq_empty (children_html : string) : hidden children_html ≠ EmptyString.
Proof. unfold hidden. by rewrite sapp_cons. Qed.

Lemma ul_open_neq_hidden (level : nat) (rest children_html : string) :
  ul_open level +:+ rest ≠ hidden children_html.
Proof.
  unfold ul_open, hidden. rewrite !sapp_assoc, !sapp_cons. by intros [=].
Qed.

Lemma expanded_should_show active_item active_path item :
  is_in_path active_path item || is_child_of_active active_item item = true
  ↔ expanded active_item active_path item.
Proof.
  unfold expanded, is_in_path, is_child_of_active.
  rewrite orb_true_iff, bool_decide_eq_true.
  destruct active_item as [active|]; [rewrite bool_decide_eq_true|].
  - split; [intros [?|?]; eauto|]. intros [?|(? & [= <-] & ?)]; auto.
  - split; [intros [?|?]; by auto|]. intros [?|(? & ? & ?)]; by auto.
Qed.

Section RenderFacts.

Variable reverse : string → option string.

Lemma render_item_entry children active_item active_path html item :
  render_item reverse children active_item active_path html item =
  (λ children_html,
     html +:+ entry_markup reverse active_item active_path item children_html)
    <$> children (id item).
Proof.
  unfold render_item, entry_markup, subtree_markup, li_close.
  destruct (children (id item)) as [children_html|]; [|done]. simpl.
  f_equal.
  destruct (truthy children_html);
    [destruct (is_in_path active_path item || is_child_of_active active_item item)|];
    by rewrite !sapp_assoc.
Qed.

(** The loop appends one entry per item, in the order of the list. *)
Lemma render_items_entries children active_item active_path items html out :
  render_items reverse children active_item active_path items html = Some out ↔
  ∃ subtrees,
    Forall2 (λ item children_html, children (id item) = Some children_html)
            items subtrees
    ∧ out = html +:+ sconcat (zip_with (entry_markup reverse active_item active_path)
                                       items subtrees).
Proof.
  revert html. induction items as [|item items IH]; intros html; simpl.
  - split.
    + intros [= <-]. exists []. split; [constructor|]. by rewrite sapp_nil_r.
    + intros (subtrees & Hall & ->). inversion Hall; subst. simpl.
      by rewrite sapp_nil_r.
  - rewrite render_item_entry.
    destruct (children (id item)) as [children_html|] eqn:Hc; simpl.
    + rewrite IH. split.
      * intros (subtrees & Hall & ->). exists (children_html :: subtrees).
        split; [by constructor|]. simpl. by rewrite sapp_assoc.
      * intros (subtrees & Hall & ->).
        inversion Hall as [|? c ? subtrees' Hc' Hall']; subst.
        rewrite Hc in Hc'. injection Hc' as <-.
        exists subtrees'. split; [done|]. simpl. by rewrite sapp_assoc.
    + split; [done|]. intros (subtrees & Hall & _).
      inversion Hall; subst. congruence.
Qed.

Lemma render_menu_level_unfold fuel menu_dict parent_id active_item active_path level :
  render_menu_level reverse (S fuel) menu_dict parent_id active_item active_path level =
  match default [] (menu_dict !! parent_id) with
  | [] => Some EmptyString
  | items =>
      (λ html, html +:+ ("</ul>" +:+ nl))
        <$> render_items reverse
              (λ pk, render_menu_level reverse fuel menu_dict (Some pk)
                                       active_item active_path (S level))
              active_item active_path items (ul_open level)
  end.
Proof.
  cbn [render_menu_level].
  destruct (default [] (menu_dict !! parent_id)); [done|].
  by destruct (render_items _ _ _ _ _ _).
Qed.

(** The shape of a rendered level: nothing for an empty bucket, else the
    list container of the level around one entry per item of the bucket,
    in the order of the bucket. *)
Lemma render_menu_level_shape fuel menu_dict parent_id active_item active_path
    level html :
  render_menu_level reverse (S fuel) menu_dict parent_id active_item active_path level
    = Some html ↔
  ∃ subtrees,
    Forall2 (λ item children_html,
               render_menu_level reverse fuel menu_dict (Some (id item))
                                 active_item active_path (S level)
               = Some children_html)
            (default [] (menu_dict !! parent_id)) subtrees
    ∧ html =
      match default [] (menu_dict !! parent_id) with
      | [] => EmptyString
      | items =>
          ul_open level
          +:+ sconcat (zip_with (entry_markup reverse active_item active_path)
                                items subtrees)
          +:+ "</ul>" +:+ nl
      end.
Proof.
  rewrite render_menu_level_unfold.
  destruct (default [] (menu_dict !! parent_id)) as [|item items] eqn:E.
  - split.
    + intros [= <-]. exists []. by split; [constructor|].
    + by intros (subtrees & _ & ->).
  - rewrite fmap_Some. setoid_rewrite render_items_entries. split.
    + intros (out & (subtrees & Hall & ->) & ->). exists subtrees.
      split; [done|]. by rewrite !sapp_assoc.
    + intros (subtrees & Hall & ->). eexists. split; [by exists subtrees|].
      by rewrite !sapp_assoc.
Qed.

End RenderFacts.

(** Each subtree is emitted bare or inside the hidden container, according
    to the expansion rule. *)
Lemma subtree_markup_rule active_item active_path item children_html :
  let subtree :=
    subtree_markup
      (is_in_path active_path item || is_child_of_active active_item item)
      children_html in
  (children_html = EmptyString → subtree = EmptyString)
  ∧ (children_html ≠ EmptyString →
     (subtree = children_html ↔ expanded active_item active_path item)
     ∧ (subtree = hidden children_html ↔ ¬ expanded active_item active_path item)).
Proof.
  simpl. unfold subtree_markup. split.
  - by intros ->.
  - intros Hne. apply truthy_true in Hne. rewrite Hne.
    pose proof (expanded_should_show active_item active_path item) as Hrule.
    pose proof (hidden_neq children_html) as Hh.
    destruct (is_in_path active_path item || is_child_of_active active_item item).
    + split; [split; [intros _; by apply Hrule | done]|].
      split; [congruence|]. intros Hn. destruct Hn. by apply Hrule.
    + split; [|split; [|done]].
      * split; [congruence|]. intros He. apply Hrule in He. discriminate.
      * intros _ He. apply Hrule in He. discriminate.
Qed.

(** C3. A level that renders is the list container of its depth around one
    entry per child.  For a child whose subtree is non-empty, the subtree
    follows the anchor as it is exactly when the child's id is in the
    ancestor set or the child's parent id is the active item's id; when
    neither holds the entry carries, in place of the bare subtree, the
    container [<div style="display:none;">], a line break, the whole subtree
    and [</div>]: the subtree is present in the markup, not left out.  An
    empty subtree adds nothing.  The level's own container is never the
    hidden one, so the level of the root call is visible. *)
Theorem render_menu_level_expansion (reverse : string → option string)
    (fuel : nat) (menu_dict : gmap (option Z) (list MenuItem))
    (parent_id : option Z) (active_item : option MenuItem)
    (active_path : gset Z) (level : nat) (html : string) :
  render_menu_level reverse (S fuel) menu_dict parent_id active_item active_path level
    = Some html →
  ∃ subtrees,
    html =
      match default [] (menu_dict !! parent_id) with
      | [] => EmptyString
      | items =>
          ul_open level
          +:+ sconcat
                (zip_with
                   (λ item subtree,
                      li_open (if is_active active_item item
                               then "active" else EmptyString)
                      +:+ anchor (get_url reverse item) (title item)
                      +:+ subtree +:+ li_close)
                   items subtrees)
          +:+ "</ul>" +:+ nl
      end
    ∧ Forall2
        (λ item subtree,
           ∃ children_html,
             render_menu_level reverse fuel menu_dict (Some (id item))
                               active_item active_path (S level)
             = Some children_html
             ∧ (children_html = EmptyString → subtree = EmptyString)
             ∧ occurs_in children_html subtree
             ∧ (children_html ≠ EmptyString →
                (subtree = children_html
                 ↔ expanded active_item active_path item)
                ∧ (subtree
                   = "<div style=" +:+ dq +:+ "display:none;" +:+ dq +:+ ">" +:+ nl
                     +:+ children_html +:+ "</div>" +:+ nl
                   ↔ ¬ expanded active_item active_path item)))
        (default [] (menu_dict !! parent_id)) subtrees
    ∧ ∀ wrapped,
        html ≠ "<div style=" +:+ dq +:+ "display:none;" +:+ dq +:+ ">" +:+ nl
               +:+ wrapped +:+ "</div>" +:+ nl.
Proof.
  intros Hrender. apply render_menu_level_shape in Hrender
    as (children & Hall & ->).
  remember (default [] (menu_dict !! parent_id)) as items eqn:Hitems.
  clear Hitems.
  assert (∃ subtrees,
    zip_with (entry_markup reverse active_item active_path) items children
    = zip_with
        (λ item subtree,
           li_open (if is_active active_item item then "active" else EmptyString)
           +:+ anchor (get_url reverse item) (title item)
           +:+ subtree +:+ li_close)
        items subtrees
    ∧ Forall2
        (λ item subtree,
           ∃ children_html,
             render_menu_level reverse fuel menu_dict (Some (id item))
                               active_item active_path (S level)
             = Some children_html
             ∧ (children_html = EmptyString → subtree = EmptyString)
             ∧ occurs_in children_html subtree
             ∧ (children_html ≠ EmptyString →
                (subtree = children_html
                 ↔ expanded active_item active_path item)
                ∧ (subtree
                   = "<div style=" +:+ dq +:+ "display:none;" +:+ dq +:+ ">" +:+ nl
                     +:+ children_html +:+ "</div>" +:+ nl
                   ↔ ¬ expanded active_item active_path item)))
        items subtrees) as (subtrees & Hzip & Hrule).
  { induction Hall as [|item children_html items children Hc Hall IH].
    - exists []. by split; [|constructor].
    - destruct IH as (subtrees & Hzip & Hrule).
      exists (subtree_markup
                (is_in_path active_path item || is_child_of_active active_item item)
                children_html :: subtrees).
      split.
      + simpl. by rewrite <- Hzip.
      + constructor; [|done]. exists children_html. split; [done|].
        destruct (subtree_markup_rule active_item active_path item children_html)
          as [Hempty Hfull].
        split; [exact Hempty|]. split; [|exact Hfull].
        unfold subtree_markup, occurs_in.
        destruct (truthy children_html) eqn:Htruthy.
        * destruct (is_in_path active_path item
                    || is_child_of_active active_item item).
          -- exists EmptyString, EmptyString.
             by rewrite sapp_nil_l, sapp_nil_r.
          -- by exists ("<div style=" +:+ dq +:+ "display:none;" +:+ dq +:+ ">" +:+ nl),
                       ("</div>" +:+ nl).
        * apply truthy_false in Htruthy as ->.
          by exists EmptyString, EmptyString. }
  exists subtrees. split; [|split; [done|]].
  - destruct items; [done|]. by rewrite Hzip.
  - intros wrapped. destruct items.
    + intros H. symmetry in H. by apply hidden_neq_empty in H.
    + apply ul_open_neq_hidden.
Qed.

(** The menu of the test suite requested at a path that matches no item:
    the two items below "Услуги" are rendered, and their level stands inside
    the hidden container of that entry. *)
Lemma render_menu_level_expansion_witness :
  ∃ html children_html first last,
    render_menu_level reverse_urls 4 (build_menu_tree test_items) None None ∅ 0
    = Some html
    ∧ render_menu_level reverse_urls 3 (build_menu_tree test_items) (Some 2)
                        None ∅ 1
      = Some children_html
    ∧ children_html ≠ EmptyString
    ∧ html
      = ul_open 0
        +:+ sconcat
              [ li_open EmptyString +:+ anchor "/" "Главная" +:+ first +:+ li_close;
                li_open EmptyString +:+ anchor "/services/" "Услуги"
                +:+ ("<div style=" +:+ dq +:+ "display:none;" +:+ dq +:+ ">" +:+ nl
                     +:+ children_html +:+ "</div>" +:+ nl)
                +:+ li_close;
                li_open EmptyString +:+ anchor "/about/" "О нас" +:+ last +:+ li_close ]
        +:+ "</ul>" +:+ nl.
Proof.
  destruct (render_menu_level reverse_urls 4 (build_menu_tree test_items)
              None None ∅ 0) as [html|] eqn:E; [|by vm_compute in E].
  destruct (render_menu_level_expansion _ _ _ _ _ _ _ _ E)
    as (subtrees & Hhtml & Hrule & _).
  assert (default [] (build_menu_tree test_items !! None)
          = [test_home; test_services; test_about]) as Hroot by reflexivity.
  rewrite Hroot in Hhtml, Hrule.
  apply Forall2_cons_inv_l in Hrule as (first & rest & _ & Hrule & ->).
  apply Forall2_cons_inv_l in Hrule
    as (subtree & rest' & (children_html & Hc & _ & _ & Hfull) & Hrule & ->).
  apply Forall2_cons_inv_l in Hrule as (last & rest'' & _ & Hrule & ->).
  apply Forall2_nil_inv_l in Hrule as ->.
  exists html, children_html, first, last.
  split; [done|]. split; [exact Hc|].
  assert (children_html ≠ EmptyString) as Hne.
  { vm_compute in Hc. injection Hc as <-. discriminate. }
  split; [exact Hne|].
  destruct (Hfull Hne) as [_ [_ Hhidden]].
  rewrite Hhidden in Hhtml; [exact Hhtml|].
  unfold expanded. simpl. intros [H|(active & H & _)]; [|discriminate].
  by apply not_elem_of_empty in H.
Defined.

(** ** The ORM: rows, instances and the parent relation *)

Lemma pk_unique_eq (db : Database) (r1 r2 : Row) :
  pk_unique db → r1 ∈ item_table db → r2 ∈ item_table db →
  r_id r1 = r_id r2 → r1 = r2.
Proof.
  unfold pk_unique. induction (item_table db) as [|x rows IH]; intros Hnd H1 H2 Hid.
  - by apply elem_of_nil in H1.
  - rewrite fmap_cons in Hnd. apply NoDup_cons in Hnd as [Hx Hnd].
    apply elem_of_cons in H1 as [-> | H1]; apply elem_of_cons in H2 as [-> | H2].
    + done.
    + destruct Hx. rewrite Hid. by apply list_elem_of_fmap_2.
    + destruct Hx. rewrite <- Hid. by apply list_elem_of_fmap_2.
    + by apply IH.
Qed.

Lemma get_row_Some (db : Database) (pk : Z) (r : Row) :
  get_row db pk = Some r → r ∈ item_table db ∧ r_id r = pk.
Proof.
  unfold get_row. intros H. apply find_some in H as [Hin Hid].
  split; [by apply list_elem_of_In | by apply bool_decide_eq_true in Hid].
Qed.

Lemma get_row_None (db : Database) (pk : Z) (r : Row) :
  get_row db pk = None → r ∈ item_table db → r_id r ≠ pk.
Proof.
  unfold get_row. intros H Hin Hid.
  apply list_elem_of_In in Hin.
  pose proof (find_none _ _ H _ Hin) as Hf. simpl in Hf.
  by apply bool_decide_eq_false in Hf.
Qed.

Lemma get_row_elem_of (db : Database) (r : Row) :
  pk_unique db → r ∈ item_table db → get_row db (r_id r) = Some r.
Proof.
  intros Hu Hin. destruct (get_row db (r_id r)) as [r'|] eqn:E.
  - apply get_row_Some in E as [Hin' Hid]. f_equal. by apply (pk_unique_eq db).
  - by destruct (get_row_None _ _ _ E Hin).
Qed.

Lemma loaded_elem_of (db : Database) (r : Row) (item : MenuItem) :
  loaded db r item → r ∈ item_table db.
Proof. by destruct 1. Qed.

Lemma loaded_id (db : Database) (r : Row) (item : MenuItem) :
  loaded db r item → id item = r_id r.
Proof. by destruct 1. Qed.

Lemma parent_chain_head (db : Database) (r : Row) (rest : list Row) :
  parent_chain db (r :: rest) → r ∈ item_table db.
Proof. by inversion 1. Qed.

(** ** get_active_path *)

Lemma get_active_path_loop_None fuel db path queries :
  get_active_path_loop fuel db path None queries = Returned path queries.
Proof. by destruct fuel. Qed.

(** Walking up from an instance whose row heads a parent chain visits the
    chain and nothing else, and takes one iteration per row. *)
Lemma get_active_path_loop_chain (db : Database) (chain : list Row) :
  pk_unique db →
  parent_chain db chain →
  ∀ r rest item fuel path queries,
    chain = r :: rest →
    loaded db r item →
    (length chain ≤ fuel)%nat →
    ∃ queries',
      get_active_path_loop fuel db path (Some item) queries
      = Returned (path ∪ list_to_set (r_id <$> chain)) queries'.
Proof.
  intros Hu Hchain.
  induction Hchain as [r0 Hin Hroot | r0 rp tail Hin Hparent Hchain IH];
    intros r rest item fuel path queries Heq Hload Hfuel;
    injection Heq as <- <-;
    (destruct fuel as [|fuel]; [simpl in Hfuel; lia|]); simpl.
  - assert (parent db item queries = Returned None queries) as ->.
    { unfold parent. inversion Hload; subst; simpl; [by rewrite Hroot | done | congruence]. }
    exists queries. rewrite (loaded_id _ _ _ Hload). simpl.
    rewrite get_active_path_loop_None. by rewrite (right_id_L ∅ (∪)).
  - assert (∃ up queries', parent db item queries = Returned (Some up) queries'
                           ∧ loaded db rp up) as (up & queries' & -> & Hup).
    { unfold parent. inversion Hload as [? ? | ? ? Hnone | ? rp' p ? Hp' Hlp]; subst; simpl.
      - rewrite Hparent. rewrite get_row_elem_of by eauto using parent_chain_head.
        eexists _, _. split; [done|]. constructor. eauto using parent_chain_head.
      - congruence.
      - eexists _, _. split; [done|].
        assert (rp' = rp) as <-; [|done].
        apply (pk_unique_eq db); eauto using loaded_elem_of, parent_chain_head.
        congruence. }
    destruct (IH rp tail up fuel (path ∪ {[id item]}) queries' eq_refl Hup)
      as (queries'' & ->); [simpl in *; lia|].
    exists queries''. f_equal. rewrite (loaded_id _ _ _ Hload).
    rewrite !fmap_cons, !list_to_set_cons. by rewrite (assoc_L (∪) path).
Qed.

Lemma parent_chain_elem_of (db : Database) (chain : list Row) (r : Row) :
  parent_chain db chain → r ∈ chain → r ∈ item_table db.
Proof.
  induction 1 as [r0 Hin Hroot | r0 rp tail Hin Hparent Hchain IH]; intros Hr.
  - apply list_elem_of_singleton in Hr. by subst.
  - apply elem_of_cons in Hr as [-> | Hr]; auto.
Qed.

Lemma chain_ids_exclude (db : Database) (chain : list Row) (other : Row) :
  pk_unique db → parent_chain db chain →
  other ∈ item_table db → other ∉ chain →
  r_id other ∉ (list_to_set (r_id <$> chain) : gset Z).
Proof.
  intros Hu Hchain Hin Hout Hid.
  apply elem_of_list_to_set, list_elem_of_fmap in Hid as (r & Hid & Hr).
  destruct Hout.
  assert (other = r) as ->; [|done].
  apply (pk_unique_eq db); eauto using parent_chain_elem_of.
Qed.

(** C6. For a chain root, A, B, C of the table (each the parent of the
    next, the root without parent) and an instance of C, [get_active_path]
    returns exactly the four ids; the id of any row of the table outside
    the chain is not in the result. *)
Theorem get_active_path_chain_of_four (db : Database)
    (root a b c : Row) (item : MenuItem) (queries : nat) :
  pk_unique db →
  parent_chain db [c; b; a; root] →
  loaded db c item →
  ∃ fuel queries',
    get_active_path fuel db (Some item) queries
    = Returned {[ r_id root; r_id a; r_id b; r_id c ]} queries'
    ∧ ∀ other,
        other ∈ item_table db → other ∉ [c; b; a; root] →
        r_id other ∉ ({[ r_id root; r_id a; r_id b; r_id c ]} : gset Z).
Proof.
  intros Hu Hchain Hload.
  destruct (get_active_path_loop_chain db _ Hu Hchain c [b; a; root] item 4%nat ∅
              queries eq_refl Hload) as (queries' & Hrun); [simpl; lia|].
  assert ((∅ ∪ list_to_set (r_id <$> [c; b; a; root]) : gset Z)
          = {[ r_id root; r_id a; r_id b; r_id c ]}) as Hset.
  { apply set_eq. intros x. simpl. set_unfold. tauto. }
  exists 4%nat, queries'. unfold get_active_path. rewrite Hrun, Hset.
  split; [done|].
  intros other Hin Hout. rewrite <- Hset, (left_id_L ∅ (∪)).
  by apply (chain_ids_exclude db).
Qed.

(** The four-level chain of [chain_db], walked from the instance of C that
    the menu query returns; the sibling's id 5 is not in the path. *)
Lemma get_active_path_chain_of_four_witness :
  ∃ fuel queries',
    get_active_path fuel chain_db (Some item_c) 1
    = Returned {[ 1; 2; 3; 4 ]} queries'
    ∧ ∀ other,
        other ∈ item_table chain_db → other ∉ [row_c; row_b; row_a; row_root] →
        r_id other ∉ ({[ 1; 2; 3; 4 ]} : gset Z).
Proof.
  apply (get_active_path_chain_of_four chain_db row_root row_a row_b row_c item_c 1).
  - unfold pk_unique. simpl. apply NoDup_ListNoDup.
    repeat constructor; simpl; intuition discriminate.
  - repeat first [ apply chain_step; [set_solver | reflexivity | ]
                 | apply chain_root; [set_solver | reflexivity] ].
  - apply (loaded_join chain_db row_c row_b); [set_solver | reflexivity |].
    apply loaded_lazy. set_solver.
Defined.

(** C2, as the code has it.  The loop has no visited set: it ends when it
    reaches an item without parent.  For an instance whose row heads a
    parent chain of the table (so that following the parent ids reaches a
    row without parent), enough iterations return the path; for no item at
    all the path is empty. *)
Theorem get_active_path_terminates_on_chains (db : Database)
    (r : Row) (rest : list Row) (item : MenuItem) (queries : nat) :
  pk_unique db →
  parent_chain db (r :: rest) →
  loaded db r item →
  (∃ fuel path queries',
      get_active_path fuel db (Some item) queries = Returned path queries')
  ∧ ∀ fuel, get_active_path fuel db None queries = Returned ∅ queries.
Proof.
  intros Hu Hchain Hload. split.
  - destruct (get_active_path_loop_chain db _ Hu Hchain r rest item
                (length (r :: rest)) ∅ queries eq_refl Hload) as (queries' & Hrun);
      [done|].
    by eexists _, _, _.
  - intros fuel. apply get_active_path_loop_None.
Qed.

(** The third level of the test menu: "Веб-дизайн" under "Веб-разработка"
    under "Услуги". *)
Lemma get_active_path_terminates_on_chains_witness :
  (∃ fuel path queries',
      get_active_path fuel test_db
        (Some (of_row (mkRow 6 1 (Some 4) "Веб-дизайн" "/services/web/design/"
                             EmptyString 0) None)) 0
      = Returned path queries')
  ∧ ∀ fuel, get_active_path fuel test_db None 0 = Returned ∅ 0%nat.
Proof.
  apply (get_active_path_terminates_on_chains test_db
           (mkRow 6 1 (Some 4) "Веб-дизайн" "/services/web/design/" EmptyString 0)
           [ mkRow 4 1 (Some 2) "Веб-разработка" "/services/web/" EmptyString 0;
             mkRow 2 1 None "Услуги" "/services/" EmptyString 1 ]).
  - unfold pk_unique. simpl. apply NoDup_ListNoDup.
    repeat constructor; simpl; intuition discriminate.
  - repeat first [ apply chain_step; [set_solver | reflexivity | ]
                 | apply chain_root; [set_solver | reflexivity] ].
  - apply loaded_lazy. set_solver.
Defined.

(** In [cyclic_db] the instances of "Ping" and "Pong" lead to each other
    for ever. *)
Lemma cyclic_walk_out_of_fuel (fuel : nat) :
  ∀ path queries,
    get_active_path_loop fuel cyclic_db path
      (Some (of_row (mkRow 2 1 (Some 3) "Ping" "/ping/" EmptyString 1) None)) queries
    = OutOfFuel
    ∧ get_active_path_loop fuel cyclic_db path
        (Some (of_row (mkRow 3 1 (Some 2) "Pong" "/pong/" EmptyString 2) None)) queries
      = OutOfFuel.
Proof.
  induction fuel as [|fuel IH]; intros path queries; [done|].
  split.
  - change (get_active_path_loop fuel cyclic_db (path ∪ {[2]})
              (Some (of_row (mkRow 3 1 (Some 2) "Pong" "/pong/" EmptyString 2) None))
              (S queries) = OutOfFuel).
    apply IH.
  - change (get_active_path_loop fuel cyclic_db (path ∪ {[3]})
              (Some (of_row (mkRow 2 1 (Some 3) "Ping" "/ping/" EmptyString 1) None))
              (S queries) = OutOfFuel).
    apply IH.
Qed.

(** C2, as stated, fails: on the item "Ping" of [cyclic_db], whose parent
    chain is the cycle Ping, Pong, Ping, ..., no number of iterations makes
    [get_active_path] return or raise. *)
Lemma get_active_path_cycle_never_returns :
  ¬ ∃ fuel, get_active_path fuel cyclic_db (Some ping) 0 ≠ OutOfFuel.
Proof.
  intros [fuel Hfuel]. apply Hfuel. clear Hfuel.
  destruct fuel as [|fuel]; [done|].
  change (get_active_path_loop fuel cyclic_db (∅ ∪ {[2]})
            (Some (of_row (mkRow 3 1 (Some 2) "Pong" "/pong/" EmptyString 2) None))
            0 = OutOfFuel).
  apply cyclic_walk_out_of_fuel.
Qed.

(** ** More fuel never changes a result *)

Lemma get_active_path_loop_mono fuel db path current queries :
  get_active_path_loop fuel db path current queries ≠ OutOfFuel →
  get_active_path_loop (S fuel) db path current queries
  = get_active_path_loop fuel db path current queries.
Proof.
  revert path current queries.
  induction fuel as [|fuel IH]; intros path current queries Hres.
  - destruct current; [done|]. by rewrite get_active_path_loop_None.
  - destruct current as [cur|]; [|done].
    change (get_active_path_loop (S (S fuel)) db path (Some cur) queries)
      with (match parent db cur queries with
            | Returned next queries' =>
                get_active_path_loop (S fuel) db (path ∪ {[id cur]}) next queries'
            | Raised e queries' => Raised e queries'
            | OutOfFuel => OutOfFuel
            end).
    change (get_active_path_loop (S fuel) db path (Some cur) queries)
      with (match parent db cur queries with
            | Returned next queries' =>
                get_active_path_loop fuel db (path ∪ {[id cur]}) next queries'
            | Raised e queries' => Raised e queries'
            | OutOfFuel => OutOfFuel
            end) in Hres |- *.
    destruct (parent db cur queries); [|done..]. by apply IH.
Qed.

Section RenderFuel.

Variable reverse : string → option string.

Lemma render_items_mono children children' active_item active_path items html out :
  (∀ pk children_html,
      children pk = Some children_html → children' pk = Some children_html) →
  render_items reverse children active_item active_path items html = Some out →
  render_items reverse children' active_item active_path items html = Some out.
Proof.
  intros Hsub. revert html.
  induction items as [|item items IH]; intros html; simpl; [done|].
  rewrite !render_item_entry.
  destruct (children (id item)) as [children_html|] eqn:E; [|done].
  rewrite (Hsub _ _ E). simpl. apply IH.
Qed.

Lemma render_menu_level_mono fuel menu_dict parent_id active_item active_path
    level html :
  render_menu_level reverse fuel menu_dict parent_id active_item active_path level
    = Some html →
  render_menu_level reverse (S fuel) menu_dict parent_id active_item active_path level
    = Some html.
Proof.
  revert parent_id level html.
  induction fuel as [|fuel IH]; intros parent_id level html; [done|].
  rewrite !render_menu_level_unfold.
  destruct (default [] (menu_dict !! parent_id)) as [|item items]; [done|].
  rewrite !fmap_Some. intros (out & Hout & ->). exists out. split; [|done].
  revert Hout. apply render_items_mono. intros pk children_html. apply IH.
Qed.

Lemma draw_menu_mono fuel db context menu_slug queries :
  draw_menu reverse fuel db context menu_slug queries ≠ OutOfFuel →
  draw_menu reverse (S fuel) db context menu_slug queries
  = draw_menu reverse fuel db context menu_slug queries.
Proof.
  unfold draw_menu.
  destruct (fetch_items db menu_slug) as [|item items]; [done|].
  destruct (find_active_item reverse (item :: items) (current_path context))
    as [active|].
  - unfold get_active_path. intros Hres.
    rewrite get_active_path_loop_mono; [|by intros E; rewrite E in Hres].
    destruct (get_active_path_loop fuel db ∅ (Some active) (S queries))
      as [active_path queries'| |]; [|done..].
    destruct (render_menu_level reverse fuel _ None (Some active) active_path 0)
      as [html|] eqn:E; [|done].
    by rewrite (render_menu_level_mono _ _ _ _ _ _ _ E).
  - intros Hres.
    destruct (render_menu_level reverse fuel _ None None ∅ 0)
      as [html|] eqn:E; [|done].
    by rewrite (render_menu_level_mono _ _ _ _ _ _ _ E).
Qed.

Lemma draw_menu_more_fuel fuel extra db context menu_slug queries :
  draw_menu reverse fuel db context menu_slug queries ≠ OutOfFuel →
  draw_menu reverse (extra + fuel) db context menu_slug queries
  = draw_menu reverse fuel db context menu_slug queries.
Proof.
  intros Hres. induction extra as [|extra IH]; [done|].
  change (S extra + fuel)%nat with (S (extra + fuel)).
  rewrite draw_menu_mono; [done|]. by rewrite IH.
Qed.

End RenderFuel.

(** ** draw_menu *)

(** C1 fails on the menu of the test suite.  With the request path of
    "Веб-дизайн", an item of the third level, the call sends two queries:
    the one for the menu, and one more when [get_active_path] reads
    [parent] of the instance that [select_related] attached to the active
    item, whose own parent was not part of the join. *)
Theorem draw_menu_third_level_sends_two_queries (extra : nat) :
  ∃ html,
    draw_menu reverse_urls (extra + 4) test_db
              (Some (mkRequest "/services/web/design/")) "main_menu" 0
    = Returned (SafeString html) 2.
Proof.
  eexists. rewrite draw_menu_more_fuel; [|by vm_compute].
  vm_compute. reflexivity.
Qed.

Lemma fetch_items_nil (db : Database) (menu_slug : string) :
  fetch_items db menu_slug = [] ↔
  ∀ r, r ∈ item_table db → ¬ in_menu db menu_slug r.
Proof.
  unfold fetch_items. split.
  - intros Hnil r Hin Hm. apply fmap_nil_inv in Hnil.
    assert (r ∈ filter (in_menu db menu_slug) (item_table db)) as Hr
      by (by apply list_elem_of_filter).
    rewrite <- (merge_sort_Permutation row_le) in Hr. rewrite Hnil in Hr.
    by apply elem_of_nil in Hr.
  - intros Hnone.
    assert (filter (in_menu db menu_slug) (item_table db) = []) as ->; [|done].
    destruct (filter (in_menu db menu_slug) (item_table db)) as [|r rows] eqn:E;
      [done|].
    assert (r ∈ filter (in_menu db menu_slug) (item_table db)) as Hr
      by (rewrite E; left).
    apply list_elem_of_filter in Hr as [Hm Hin]. by destruct (Hnone r Hin).
Qed.

(** C8. When the query for the menu yields no item, [draw_menu] returns
    the empty string after that one query, whatever the fuel: neither the
    tree, nor the active item, nor the markup is computed, and nothing is
    raised.  A slug that no menu carries yields no item. *)
Theorem draw_menu_empty (reverse : string → option string) (db : Database)
    (context : option HttpRequest) (menu_slug : string) :
  (fetch_items db menu_slug = [] →
   ∀ fuel queries,
     draw_menu reverse fuel db context menu_slug queries
     = Returned (Str EmptyString) (S queries))
  ∧ ((∀ m, m ∈ menu_table db → slug m ≠ menu_slug) →
     fetch_items db menu_slug = []).
Proof.
  split.
  - intros Hnil fuel queries. unfold draw_menu. by rewrite Hnil.
  - intros Hslug. apply fetch_items_nil. intros r _ Hm.
    apply Exists_exists in Hm as (m & Hin & _ & Hs). by apply (Hslug m).
Qed.

(** The test database has no menu called ["footer_menu"]. *)
Lemma draw_menu_empty_witness :
  fetch_items test_db "footer_menu" = []
  ∧ ∀ fuel queries,
      draw_menu reverse_urls fuel test_db None "footer_menu" queries
      = Returned (Str EmptyString) (S queries).
Proof.
  pose proof (draw_menu_empty reverse_urls test_db None "footer_menu")
    as [Hdraw Hfetch].
  assert (fetch_items test_db "footer_menu" = []) as Hnil.
  { apply Hfetch. intros m Hm. apply list_elem_of_singleton in Hm. by subst. }
  split; [exact Hnil | exact (Hdraw Hnil)].
Defined.

(** ** Ordering *)

#[global] Instance row_le_trans : Transitive row_le.
Proof. intros a b c. unfold row_le. lia. Qed.

#[global] Instance row_le_total : Total row_le.
Proof. intros a b. unfold row_le. lia. Qed.

#[global] Instance item_le_trans : Transitive item_le.
Proof. intros a b c. unfold item_le. lia. Qed.

Lemma StronglySorted_filter {A} (R : relation A) (P : A → Prop)
    `{∀ x, Decision (P x)} (l : list A) :
  StronglySorted R l → StronglySorted R (filter P l).
Proof.
  induction 1 as [|x l Hl IH Hx]; [constructor|].
  rewrite filter_cons. destruct (decide (P x)); [|done].
  apply SSorted_cons; [exact IH|].
  apply Forall_forall. intros y Hy. apply list_elem_of_filter in Hy as [_ Hy].
  by eapply Forall_forall in Hx.
Qed.

Lemma Sorted_item_le_filter (P : MenuItem → Prop) `{∀ x, Decision (P x)}
    (items : list MenuItem) :
  Sorted item_le items → Sorted item_le (filter P items).
Proof.
  intros Hs. apply StronglySorted_Sorted, StronglySorted_filter.
  by apply (sorting.Sorted_StronglySorted item_le).
Qed.

(** The queryset comes back in the order of [Meta.ordering]. *)
Lemma fetch_items_sorted (db : Database) (menu_slug : string) :
  Sorted item_le (fetch_items db menu_slug).
Proof.
  unfold fetch_items. eapply Sorted_fmap; [|apply (Sorted_merge_sort row_le)].
  by intros a b.
Qed.

Lemma pk_unique_perm (db db' : Database) :
  item_table db ≡ₚ item_table db' → pk_unique db → pk_unique db'.
Proof. unfold pk_unique. by intros ->. Qed.

Lemma get_row_perm (db db' : Database) (pk : Z) :
  pk_unique db → item_table db ≡ₚ item_table db' →
  get_row db pk = get_row db' pk.
Proof.
  intros Hu Hperm.
  destruct (get_row db pk) as [r|] eqn:E.
  - apply get_row_Some in E as [Hin <-]. symmetry.
    apply get_row_elem_of; [by eapply pk_unique_perm | by rewrite <- Hperm].
  - destruct (get_row db' pk) as [r'|] eqn:E'; [|done].
    apply get_row_Some in E' as [Hin Hid]. rewrite <- Hperm in Hin.
    by destruct (get_row_None _ _ _ E Hin).
Qed.

(** The order in which the rows were inserted does not show in the
    queryset. *)
Lemma fetch_items_perm (db db' : Database) (menu_slug : string) :
  pk_unique db →
  menu_table db = menu_table db' →
  item_table db ≡ₚ item_table db' →
  fetch_items db menu_slug = fetch_items db' menu_slug.
Proof.
  intros Hu Hmenus Hperm. unfold fetch_items.
  assert (merge_sort row_le (filter (in_menu db menu_slug) (item_table db))
          = merge_sort row_le (filter (in_menu db' menu_slug) (item_table db')))
    as <-.
  { apply (Sorted_unique_strong row_le).
    - intros x1 x2 H1 H2 H12 H21.
      rewrite merge_sort_Permutation in H1, H2.
      apply list_elem_of_filter in H1 as [_ H1].
      apply list_elem_of_filter in H2 as [_ H2].
      rewrite <- Hperm in H2.
      apply (pk_unique_eq db); [done..|]. unfold row_le in *. lia.
    - apply Sorted_merge_sort, _.
    - apply Sorted_merge_sort, _.
    - rewrite !merge_sort_Permutation.
      assert (filter (in_menu db' menu_slug) (item_table db')
              = filter (in_menu db menu_slug) (item_table db')) as ->.
      { apply list_filter_iff. intros r. unfold in_menu. by rewrite Hmenus. }
      by rewrite Hperm. }
  apply list_fmap_ext. intros _ r _. f_equal. f_equal.
  unfold joined_parent. destruct (r_parent_id r); [|done].
  by rewrite (get_row_perm db db').
Qed.

(** ** Items that the renderer never reaches *)

Section Pruning.

Variable reverse : string → option string.

Lemma render_items_ext children children' active_item active_path items html :
  (∀ item, item ∈ items → children (id item) = children' (id item)) →
  render_items reverse children active_item active_path items html
  = render_items reverse children' active_item active_path items html.
Proof.
  revert html. induction items as [|item items IH]; intros html Hext; [done|].
  simpl. rewrite !render_item_entry, <- (Hext item) by left.
  destruct (children (id item)) as [children_html|]; [|done]. simpl.
  apply IH. intros other Hother. apply Hext. by right.
Qed.

Lemma bucket_of_filter_keep (keep : MenuItem → Prop) `{∀ x, Decision (keep x)}
    (items : list MenuItem) (key : option Z) :
  (∀ item, item ∈ items → parent_id item = key → keep item) →
  bucket_of (filter keep items) key = bucket_of items key.
Proof.
  unfold bucket_of. induction items as [|item items IH]; intros Hkeep; [done|].
  rewrite (filter_cons keep).
  destruct (decide (keep item)) as [Hk | Hk].
  - rewrite !filter_cons. rewrite IH; [done|].
    intros other Hother. apply Hkeep. by right.
  - rewrite filter_cons. destruct (decide (parent_id item = key)) as [Hp | Hp].
    + destruct Hk. apply Hkeep; [left | done].
    + apply IH. intros other Hother. apply Hkeep. by right.
Qed.

(** Dropping a set of items whose parent ids name no kept item (and are
    not [None]) does not change the markup of any level that is keyed by
    [None] or by a kept item. *)
Lemma render_menu_level_prune (keep : MenuItem → Prop) `{∀ x, Decision (keep x)}
    (items : list MenuItem) active_item active_path :
  (∀ item, item ∈ items → parent_id item = None → keep item) →
  (∀ item up, item ∈ items → up ∈ items → keep up →
              parent_id item = Some (id up) → keep item) →
  ∀ fuel key level,
    (key = None ∨ ∃ up, up ∈ items ∧ keep up ∧ key = Some (id up)) →
    render_menu_level reverse fuel (build_menu_tree (filter keep items)) key
                      active_item active_path level
    = render_menu_level reverse fuel (build_menu_tree items) key
                        active_item active_path level.
Proof.
  intros Hroots Hclosed.
  induction fuel as [|fuel IH]; intros key level Hkey; [done|].
  rewrite !render_menu_level_unfold, !build_menu_tree_get.
  assert (∀ item, item ∈ items → parent_id item = key → keep item) as Hbucket.
  { intros item Hin Hp. destruct Hkey as [-> | (up & Hup & Hk & ->)]; eauto. }
  rewrite (bucket_of_filter_keep keep items key Hbucket).
  destruct (bucket_of items key) as [|first bucket] eqn:E; [done|].
  f_equal. apply render_items_ext. intros item Hitem.
  apply IH. right. exists item.
  rewrite <- E in Hitem. apply list_elem_of_filter in Hitem as [Hp Hin].
  eauto.
Qed.

End Pruning.

Lemma orphaned_closed (items : list MenuItem) :
  NoDup (id <$> items) →
  ∀ item up,
    item ∈ items → up ∈ items → ¬ orphaned items up →
    parent_id item = Some (id up) → ¬ orphaned items item.
Proof.
  intros Hnd item up Hitem Hup Hno Hp Ho.
  destruct Ho as [item pk _ Hpk Hnone | item up' _ Hup' Hpk Ho].
  - rewrite Hp in Hpk. injection Hpk as <-. by apply (Hnone up).
  - rewrite Hp in Hpk. injection Hpk as Hid.
    assert (up = up') as <-; [|done].
    apply list_elem_of_lookup in Hup as [i Hi].
    apply list_elem_of_lookup in Hup' as [j Hj].
    assert (i = j) as <-; [|congruence].
    eapply NoDup_lookup; [exact Hnd|..]; rewrite list_lookup_fmap.
    + by rewrite Hi.
    + rewrite Hj. simpl. by rewrite Hid.
Qed.

Lemma fetch_items_ids (db : Database) (menu_slug : string) :
  pk_unique db → NoDup (id <$> fetch_items db menu_slug).
Proof.
  intros Hu. unfold fetch_items. rewrite <- list_fmap_compose.
  change (NoDup (r_id <$> merge_sort row_le
                             (filter (in_menu db menu_slug) (item_table db)))).
  rewrite merge_sort_Permutation.
  eapply sublist_NoDup; [exact Hu|]. apply fmap_sublist, sublist_filter.
Qed.

(** What a returning call returns: the plain empty string for an empty
    queryset, else the markup of the root level, marked safe. *)
Lemma draw_menu_returned reverse fuel db context menu_slug queries value queries' :
  draw_menu reverse fuel db context menu_slug queries = Returned value queries' →
  (fetch_items db menu_slug = [] ∧ value = Str EmptyString)
  ∨ ∃ html active_path,
      value = SafeString html
      ∧ render_menu_level reverse fuel (build_menu_tree (fetch_items db menu_slug))
          None
          (find_active_item reverse (fetch_items db menu_slug) (current_path context))
          active_path 0
        = Some html.
Proof.
  unfold draw_menu.
  destruct (fetch_items db menu_slug) as [|first rest] eqn:E.
  { intros [= <- _]. by left. }
  intros Hrun. right.
  destruct (match find_active_item reverse (first :: rest) (current_path context) with
            | Some _ => _ | None => _ end) as [active_path q| |]; [|done..].
  destruct (render_menu_level reverse fuel _ None _ active_path 0) as [html|] eqn:Er;
    [|done].
  injection Hrun as <- _. by exists html, active_path.
Qed.

(** C9. An item of the queryset whose parent id names no item of the
    queryset, and every item below such an item, is left out of what
    [draw_menu] returns: the markup is the markup of the queryset without
    these items, and none of them is filed under [None], the key of the
    root level. *)
Theorem draw_menu_omits_orphans (reverse : string → option string)
    (db : Database) (context : option HttpRequest) (menu_slug : string)
    (keep : MenuItem → Prop) `{∀ x, Decision (keep x)}
    (fuel queries : nat) (html : string) (queries' : nat) :
  pk_unique db →
  (∀ item, item ∈ fetch_items db menu_slug →
           (keep item ↔ ¬ orphaned (fetch_items db menu_slug) item)) →
  draw_menu reverse fuel db context menu_slug queries
  = Returned (SafeString html) queries' →
  (∃ active_path,
      render_menu_level reverse fuel
        (build_menu_tree (filter keep (fetch_items db menu_slug))) None
        (find_active_item reverse (fetch_items db menu_slug) (current_path context))
        active_path 0
      = Some html)
  ∧ (∀ item,
        item ∈ fetch_items db menu_slug →
        orphaned (fetch_items db menu_slug) item →
        (item ∉ filter keep (fetch_items db menu_slug))
        ∧ (item ∉ default [] (build_menu_tree (fetch_items db menu_slug) !! None))).
Proof.
  intros Hu Hkeep Hdraw.
  assert (∀ item, orphaned (fetch_items db menu_slug) item → parent_id item ≠ None)
    as Hnonroot.
  { intros item Ho. destruct Ho; congruence. }
  split.
  - apply draw_menu_returned in Hdraw as [[_ [=]] | (html' & active_path & [= <-] & Hr)].
    exists active_path. rewrite <- Hr.
    apply render_menu_level_prune; [| |by left].
    + intros item Hin Hroot. apply Hkeep; [done|]. intros Ho.
      by apply Hnonroot in Ho.
    + intros item up Hin Hup Hk Hp. apply Hkeep; [done|].
      apply (orphaned_closed _ (fetch_items_ids db menu_slug Hu) item up);
        [done..| |done].
      by apply Hkeep.
  - intros item Hin Ho. split.
    + rewrite list_elem_of_filter. intros [Hk _]. by apply Hkeep in Hk.
    + rewrite build_menu_tree_get. unfold bucket_of. rewrite list_elem_of_filter.
      intros [Hroot _]. by apply Hnonroot in Ho.
Qed.

(** In [cross_menu_db] the item "Stray" of the main menu has its parent in
    the footer menu, and "Below" hangs under "Stray": the main menu
    renders as "Home" alone. *)
Lemma draw_menu_omits_orphans_witness :
  ∃ html,
    draw_menu reverse_urls 2 cross_menu_db None "main_menu" 0
    = Returned (SafeString html) 1
    ∧ ∃ active_path,
        render_menu_level reverse_urls 2
          (build_menu_tree
             (filter (λ item, id item = 1) (fetch_items cross_menu_db "main_menu")))
          None
          (find_active_item reverse_urls (fetch_items cross_menu_db "main_menu")
                            (current_path None))
          active_path 0
        = Some html.
Proof.
  destruct (draw_menu reverse_urls 2 cross_menu_db None "main_menu" 0)
    as [[s | html] q | |] eqn:E; try (by vm_compute in E).
  assert (q = 1%nat) as -> by (vm_compute in E; congruence).
  exists html. split; [done|].
  apply (draw_menu_omits_orphans reverse_urls cross_menu_db None "main_menu"
           (λ item, id item = 1) 2 0 html 1); [| |exact E].
  - unfold pk_unique. simpl. apply NoDup_ListNoDup.
    repeat constructor; simpl; intuition discriminate.
  - assert (fetch_items cross_menu_db "main_menu"
            = [ home_item; below_item; stray_item ]) as -> by (by vm_compute).
    assert (∀ other, other ∈ [ home_item; below_item; stray_item ] → id other ≠ 2)
      as Hdangling.
    { intros other Hother.
      apply elem_of_cons in Hother as [-> | Hother];
        [|apply elem_of_cons in Hother as [-> | Hother];
          [|apply list_elem_of_singleton in Hother as ->]]; done. }
    assert (orphaned [ home_item; below_item; stray_item ] stray_item) as Hstray.
    { eapply orphaned_dangling; [set_solver | reflexivity | exact Hdangling]. }
    intros item Hin.
    apply elem_of_cons in Hin as [-> | Hin];
      [|apply elem_of_cons in Hin as [-> | Hin];
        [|apply list_elem_of_singleton in Hin as ->]].
    + split; [|done]. intros _ Ho. inversion Ho; discriminate.
    + split; [done|]. intros Hno. destruct Hno.
      eapply (orphaned_descendant _ _ stray_item);
        [set_solver | set_solver | reflexivity | exact Hstray].
    + split; [done|]. intros Hno. by destruct Hno.
Defined.

(** ** Verbatim interpolation *)

Lemma occurs_in_trans s t u : occurs_in s t → occurs_in t u → occurs_in s u.
Proof.
  intros (b1 & a1 & ->) (b2 & a2 & ->).
  exists (b2 +:+ b1), (a1 +:+ a2). by rewrite !sapp_assoc.
Qed.

Lemma occurs_in_sconcat part parts : part ∈ parts → occurs_in part (sconcat parts).
Proof.
  induction parts as [|p parts IH]; intros Hin; [by apply elem_of_nil in Hin|].
  simpl. apply elem_of_cons in Hin as [-> | Hin].
  - apply occurs_in_app_l, occurs_in_refl.
  - by apply occurs_in_app_r, IH.
Qed.

Lemma occurs_in_hidden children_html : occurs_in children_html (hidden children_html).
Proof.
  unfold hidden. do 6 apply occurs_in_app_r. apply occurs_in_app_l, occurs_in_refl.
Qed.

Lemma occurs_in_subtree_markup shown children_html :
  occurs_in children_html (subtree_markup shown children_html).
Proof.
  unfold subtree_markup. destruct (truthy children_html) eqn:E.
  - destruct shown; [apply occurs_in_refl | apply occurs_in_hidden].
  - apply truthy_false in E as ->. apply occurs_in_refl.
Qed.

Lemma occurs_in_anchor href text :
  occurs_in ("<a href=" +:+ dq +:+ href +:+ dq +:+ ">" +:+ text +:+ "</a>")
            (anchor href text).
Proof.
  unfold anchor. exists "    ", nl.
  by rewrite !sapp_assoc.
Qed.

(** C10. Each entry of a rendered level carries the item's resolved URL and
    title exactly as they are, with no character replaced, and the markup
    of the item's subtree occurs in the markup of the level, so the same
    holds at every depth.  [draw_menu] returns that markup unchanged and
    marked safe ([SafeString]), or the plain empty string when the
    queryset is empty. *)
Theorem draw_menu_interpolates_verbatim (reverse : string → option string) :
  (∀ fuel menu_dict key active_item active_path level html item,
      render_menu_level reverse (S fuel) menu_dict key active_item active_path level
        = Some html →
      item ∈ default [] (menu_dict !! key) →
      occurs_in ("<a href=" +:+ dq +:+ get_url reverse item +:+ dq
                 +:+ ">" +:+ title item +:+ "</a>") html
      ∧ ∃ children_html,
          render_menu_level reverse fuel menu_dict (Some (id item))
                            active_item active_path (S level)
          = Some children_html
          ∧ occurs_in children_html html)
  ∧ (∀ fuel db context menu_slug queries value queries',
        draw_menu reverse fuel db context menu_slug queries
          = Returned value queries' →
        (fetch_items db menu_slug = [] ∧ value = Str EmptyString)
        ∨ ∃ html active_path,
            value = SafeString html
            ∧ render_menu_level reverse fuel
                (build_menu_tree (fetch_items db menu_slug)) None
                (find_active_item reverse (fetch_items db menu_slug)
                                  (current_path context))
                active_path 0
              = Some html).
Proof.
  split; [|intros *; apply draw_menu_returned].
  intros fuel menu_dict key active_item active_path level html item Hrender Hin.
  apply render_menu_level_shape in Hrender as (subtrees & Hall & ->).
  destruct (default [] (menu_dict !! key)) as [|first bucket] eqn:E;
    [by apply elem_of_nil in Hin|].
  rewrite <- E in *. clear E first bucket.
  apply list_elem_of_lookup in Hin as [i Hi].
  destruct (Forall2_lookup_l _ _ _ _ _ Hall Hi) as (children_html & Hc & Hsub).
  assert (occurs_in (entry_markup reverse active_item active_path item children_html)
            (ul_open level
             +:+ sconcat (zip_with (entry_markup reverse active_item active_path)
                                   (default [] (menu_dict !! key)) subtrees)
             +:+ "</ul>" +:+ nl)) as Hentry.
  { apply occurs_in_app_r, occurs_in_app_l, occurs_in_sconcat.
    apply list_elem_of_lookup. exists i.
    rewrite lookup_zip_with, Hi. simpl. by rewrite Hc. }
  split.
  - eapply occurs_in_trans; [|exact Hentry].
    eapply occurs_in_trans; [apply occurs_in_anchor|].
    unfold entry_markup. apply occurs_in_app_r, occurs_in_app_l, occurs_in_refl.
  - exists children_html. split; [done|].
    eapply occurs_in_trans; [|exact Hentry].
    unfold entry_markup.
    do 2 apply occurs_in_app_r. apply occurs_in_app_l, occurs_in_subtree_markup.
Qed.

(** The only item of [markup_db] has markup characters in its title and
    its URL; both reach the output as they are. *)
Lemma draw_menu_interpolates_verbatim_witness :
  ∃ html,
    draw_menu reverse_urls 2 markup_db None "main_menu" 0
    = Returned (SafeString html) 1
    ∧ occurs_in ("<a href=" +:+ dq +:+ "/?a=1&b=2" +:+ dq
                 +:+ ">" +:+ "<b>Home</b> & more" +:+ "</a>") html.
Proof.
  destruct (draw_menu reverse_urls 2 markup_db None "main_menu" 0)
    as [[s | html] q | |] eqn:E; try (by vm_compute in E).
  assert (q = 1%nat) as -> by (vm_compute in E; congruence).
  exists html. split; [done|].
  destruct (draw_menu_interpolates_verbatim reverse_urls) as [Hlevel Hdraw].
  apply Hdraw in E as [[_ [=]] | (html' & active_path & [= <-] & Hr)].
  apply (Hlevel 1%nat _ None _ _ 0%nat html
           (of_row (mkRow 1 1 None "<b>Home</b> & more" "/?a=1&b=2" EmptyString 0)
                   (Some None))) in Hr as [Hanchor _].
  - exact Hanchor.
  - vm_compute. left.
Defined.

(** ** How many queries a call sends *)

Lemma get_active_path_loop_more_fuel fuel extra db path current queries :
  get_active_path_loop fuel db path current queries ≠ OutOfFuel →
  get_active_path_loop (extra + fuel) db path current queries
  = get_active_path_loop fuel db path current queries.
Proof.
  intros Hres. induction extra as [|extra IH]; [done|].
  change (S extra + fuel)%nat with (S (extra + fuel)).
  rewrite get_active_path_loop_mono; [done|]. by rewrite IH.
Qed.

(** Walking up from an instance without attached parent costs one query
    per ancestor. *)
Lemma lazy_walk_queries (db : Database) (chain : list Row) :
  pk_unique db →
  parent_chain db chain →
  ∀ r rest fuel path queries,
    chain = r :: rest →
    (length chain ≤ fuel)%nat →
    get_active_path_loop fuel db path (Some (of_row r None)) queries
    = Returned (path ∪ list_to_set (r_id <$> chain)) (queries + length rest).
Proof.
  intros Hu Hchain.
  induction Hchain as [r0 Hin Hroot | r0 rp tail Hin Hparent Hchain IH];
    intros r rest fuel path queries Heq Hfuel;
    injection Heq as <- <-;
    (destruct fuel as [|fuel]; [simpl in Hfuel; lia|]); simpl.
  - unfold parent. simpl. rewrite Hroot, get_active_path_loop_None.
    rewrite Nat.add_0_r. by rewrite (right_id_L ∅ (∪)).
  - unfold parent. simpl. rewrite Hparent.
    rewrite get_row_elem_of by eauto using parent_chain_head.
    rewrite (IH rp tail fuel _ _ eq_refl) by (simpl in *; lia).
    f_equal; [|lia].
    rewrite !fmap_cons, !list_to_set_cons. by rewrite (assoc_L (∪) path).
Qed.

(** An instance of the queryset has its parent attached by the join: the
    first step up is free, every further one costs a query. *)
Lemma joined_walk_queries (db : Database) (r : Row) (rest : list Row)
    (fuel queries : nat) :
  pk_unique db →
  parent_chain db (r :: rest) →
  (length (r :: rest) ≤ fuel)%nat →
  get_active_path fuel db (Some (of_row r (Some (joined_parent db r)))) queries
  = Returned (list_to_set (r_id <$> r :: rest)) (queries + (length rest - 1)).
Proof.
  intros Hu Hchain Hfuel. unfold get_active_path.
  destruct fuel as [|fuel]; [simpl in Hfuel; lia|]. simpl.
  unfold parent, joined_parent. simpl.
  inversion Hchain as [? Hin Hroot | ? rp tail Hin Hparent Hup]; subst.
  - rewrite Hroot, get_active_path_loop_None. simpl.
    rewrite Nat.add_0_r. by rewrite (left_id_L ∅ (∪)), (right_id_L ∅ (∪)).
  - rewrite Hparent. rewrite get_row_elem_of by eauto using parent_chain_head.
    simpl.
    rewrite (lazy_walk_queries db _ Hu Hup rp tail fuel _ _ eq_refl)
      by (simpl in *; lia).
    f_equal; [|simpl; lia].
    rewrite !fmap_cons, !list_to_set_cons. by rewrite (left_id_L ∅ (∪)).
Qed.

Lemma fetch_items_elem (db : Database) (menu_slug : string) (item : MenuItem) :
  item ∈ fetch_items db menu_slug →
  ∃ r, r ∈ item_table db ∧ in_menu db menu_slug r
       ∧ item = of_row r (Some (joined_parent db r)).
Proof.
  unfold fetch_items. intros Hin.
  apply list_elem_of_fmap in Hin as (r & -> & Hr).
  rewrite merge_sort_Permutation in Hr.
  apply list_elem_of_filter in Hr as [Hm Hr]. by exists r.
Qed.

(** X9. The number of queries of a returning call: the one for the menu
    when no item is active; with an active item whose row heads the parent
    chain [r :: rest], one more for each ancestor beyond the first. *)
Lemma draw_menu_query_count (reverse : string → option string) (fuel : nat)
    (db : Database) (context : option HttpRequest) (menu_slug : string)
    (queries : nat) (value : TemplateValue) (queries' : nat) :
  pk_unique db →
  draw_menu reverse fuel db context menu_slug queries = Returned value queries' →
  match find_active_item reverse (fetch_items db menu_slug) (current_path context) with
  | None => queries' = S queries
  | Some active =>
      ∀ r rest,
        id active = r_id r → parent_chain db (r :: rest) →
        queries' = (S queries + (length rest - 1))%nat
  end.
Proof.
  intros Hu. unfold draw_menu.
  destruct (fetch_items db menu_slug) as [|first others] eqn:E.
  { intros [= _ <-]. done. }
  rewrite <- E.
  destruct (find_active_item reverse (fetch_items db menu_slug) (current_path context))
    as [active|] eqn:Ef.
  - intros Hrun r rest Hid Hchain.
    apply find_active_item_Some in Ef as (before & after & Hsplit & _).
    assert (active ∈ fetch_items db menu_slug) as Hin
      by (rewrite Hsplit, elem_of_app; right; left).
    apply fetch_items_elem in Hin as (r0 & Hr0 & _ & ->).
    assert (r0 = r) as ->
      by (apply (pk_unique_eq db); eauto using parent_chain_head).
    destruct (get_active_path fuel db _ (S queries)) as [active_path q| |] eqn:Ep;
      [|done..].
    destruct (render_menu_level reverse fuel _ None _ active_path 0); [|done].
    injection Hrun as _ <-.
    pose proof (joined_walk_queries db r rest (length (r :: rest) + fuel) (S queries)
                  Hu Hchain ltac:(lia)) as Hwalk.
    unfold get_active_path in *.
    rewrite get_active_path_loop_more_fuel in Hwalk by (by rewrite Ep).
    rewrite Ep in Hwalk. by injection Hwalk.
  - intros Hrun.
    destruct (render_menu_level reverse fuel _ None None ∅ 0); [|done].
    by injection Hrun.
Qed.

(** A call that walks into a cycle uses up any fuel: with the request path
    of "Ping" the tag does not return for [cyclic_db]. *)
Lemma draw_menu_cycle_never_returns (fuel : nat) :
  draw_menu reverse_urls fuel cyclic_db (Some (mkRequest "/ping/")) "main_menu" 0
  = OutOfFuel.
Proof.
  unfold draw_menu.
  assert (fetch_items cyclic_db "main_menu" ≠ []) as Hne by (by vm_compute).
  destruct (fetch_items cyclic_db "main_menu") as [|first others] eqn:E; [done|].
  rewrite <- E.
  assert (find_active_item reverse_urls (fetch_items cyclic_db "main_menu")
            (current_path (Some (mkRequest "/ping/"))) = Some ping) as ->
    by (by vm_compute).
  destruct (get_active_path fuel cyclic_db (Some ping) 1) as [p q|e q|] eqn:Ep;
    [| |done].
  - destruct fuel as [|fuel]; [done|].
    pose proof (proj2 (cyclic_walk_out_of_fuel fuel (∅ ∪ {[2]}) 1)) as Hloop.
    unfold get_active_path in Ep. simpl in Ep. unfold parent in Ep. simpl in Ep.
    congruence.
  - destruct fuel as [|fuel]; [done|].
    pose proof (proj2 (cyclic_walk_out_of_fuel fuel (∅ ∪ {[2]}) 1)) as Hloop.
    unfold get_active_path in Ep. simpl in Ep. unfold parent in Ep. simpl in Ep.
    congruence.
Qed.

(** ** The renderer returns on every queryset *)

Lemma ids_unique (items : list MenuItem) (a b : MenuItem) :
  NoDup (id <$> items) → a ∈ items → b ∈ items → id a = id b → a = b.
Proof.
  intros Hnd Ha Hb Hid.
  apply list_elem_of_lookup in Ha as [i Hi].
  apply list_elem_of_lookup in Hb as [j Hj].
  assert (i = j) as <-; [|congruence].
  eapply NoDup_lookup; [exact Hnd|..]; rewrite list_lookup_fmap.
  - by rewrite Hi.
  - rewrite Hj. simpl. by rewrite Hid.
Qed.

Lemma depth_functional (items : list MenuItem) (item : MenuItem) (n m : nat) :
  NoDup (id <$> items) → depth items item n → depth items item m → n = m.
Proof.
  intros Hnd Hn. revert m.
  induction Hn as [item Hin Hroot | item up n Hin Hup Hp Hn IH]; intros m Hm.
  - inversion Hm; [done | congruence].
  - inversion Hm as [| ? up' m' _ Hup' Hp' Hm']; subst; [congruence|].
    f_equal. apply IH.
    assert (up = up') as ->; [|done].
    apply (ids_unique items); [done..|congruence].
Qed.

Lemma descent_depth (items : list MenuItem) (key : option Z) (path : list MenuItem)
    (base : nat) :
  descent items key path →
  (∀ item, item ∈ items → parent_id item = key → depth items item base) →
  ∀ i item, path !! i = Some item → depth items item (base + i).
Proof.
  intros Hd. revert base.
  induction Hd as [key | key first rest Hin Hp Hd IH]; intros base Hbase i item Hi.
  - by rewrite lookup_nil in Hi.
  - destruct i as [|i]; simpl in Hi.
    + injection Hi as <-. rewrite Nat.add_0_r. by apply Hbase.
    + replace (base + S i)%nat with (S base + i)%nat by lia.
      apply (IH (S base)); [|done].
      intros child Hchild Hpc.
      apply (depth_child items child first base); [done..|by apply Hbase].
Qed.

Lemma descent_elem_of (items : list MenuItem) (key : option Z) (path : list MenuItem) :
  descent items key path → ∀ item, item ∈ path → item ∈ items.
Proof.
  induction 1 as [key | key first rest Hin Hp Hd IH]; intros item Hitem.
  - by apply elem_of_nil in Hitem.
  - apply elem_of_cons in Hitem as [-> | Hitem]; auto.
Qed.

(** A descent from the root key visits no item twice, so it is no longer
    than the list. *)
Lemma descent_length (items : list MenuItem) (path : list MenuItem) :
  NoDup (id <$> items) → descent items None path →
  (length path ≤ length items)%nat.
Proof.
  intros Hnd Hd.
  assert (NoDup items) as Hnd' by (by eapply NoDup_fmap_1).
  assert (NoDup path) as Hpath.
  { apply NoDup_alt. intros i j item Hi Hj.
    pose proof (descent_depth items None path 0 Hd) as Hdepth.
    assert (∀ item, item ∈ items → parent_id item = None → depth items item 0)
      as Hbase by (intros; by constructor).
    apply (depth_functional items item); [done|by apply (Hdepth Hbase)..]. }
  apply submseteq_length, NoDup_submseteq; [done|].
  by apply (descent_elem_of items None).
Qed.

Section RenderTotal.

Variable reverse : string → option string.

Lemma render_items_None children active_item active_path items html :
  render_items reverse children active_item active_path items html = None →
  ∃ item, item ∈ items ∧ children (id item) = None.
Proof.
  revert html. induction items as [|item items IH]; intros html; [done|].
  simpl. rewrite render_item_entry.
  destruct (children (id item)) as [children_html|] eqn:E; simpl.
  - intros Hrest. apply IH in Hrest as (other & Hin & Hnone).
    exists other. split; [by right | done].
  - intros _. exists item. split; [left | done].
Qed.

(** A call that runs out of fuel has followed a descent as long as the
    fuel. *)
Lemma render_menu_level_None_descent items active_item active_path fuel key level :
  render_menu_level reverse fuel (build_menu_tree items) key
                    active_item active_path level = None →
  ∃ path, length path = fuel ∧ descent items key path.
Proof.
  revert key level. induction fuel as [|fuel IH]; intros key level Hnone.
  - exists []. split; [done | constructor].
  - rewrite render_menu_level_unfold, build_menu_tree_get in Hnone.
    destruct (bucket_of items key) as [|first bucket] eqn:E; [done|].
    apply fmap_None, render_items_None in Hnone as (item & Hin & Hnone).
    apply IH in Hnone as (path & Hlen & Hd).
    rewrite <- E in Hin. apply list_elem_of_filter in Hin as [Hp Hin].
    exists (item :: path). split; [simpl; by rewrite Hlen | by constructor].
Qed.

(** With ids that are unique, as primary keys are, the root level renders
    within a depth of one more than the number of items. *)
Lemma render_menu_level_returns items active_item active_path level :
  NoDup (id <$> items) →
  ∃ html,
    render_menu_level reverse (S (length items)) (build_menu_tree items) None
                      active_item active_path level = Some html.
Proof.
  intros Hnd.
  destruct (render_menu_level reverse (S (length items)) (build_menu_tree items)
              None active_item active_path level) as [html|] eqn:E; [by exists html|].
  apply render_menu_level_None_descent in E as (path & Hlen & Hd).
  pose proof (descent_length items path Hnd Hd). lia.
Qed.

(** [draw_menu] returns whenever the parent chain of the active item, if
    there is one, ends in a row without parent. *)
Lemma draw_menu_returns (db : Database) (context : option HttpRequest)
    (menu_slug : string) (queries : nat) :
  pk_unique db →
  (∀ active,
      find_active_item reverse (fetch_items db menu_slug) (current_path context)
      = Some active →
      ∃ r rest, id active = r_id r ∧ parent_chain db (r :: rest)) →
  ∃ fuel value queries',
    draw_menu reverse fuel db context menu_slug queries = Returned value queries'.
Proof.
  intros Hu Hactive.
  destruct (fetch_items db menu_slug) as [|first others] eqn:E.
  { exists 0%nat. eexists _, _. unfold draw_menu. by rewrite E. }
  destruct (find_active_item reverse (fetch_items db menu_slug) (current_path context))
    as [active|] eqn:Ef.
  - destruct (Hactive active) as (r & rest & Hid & Hchain); [by rewrite <- E|].
    pose proof Ef as Hsplit.
    apply find_active_item_Some in Hsplit as (before & after & Hsplit & _).
    assert (active ∈ fetch_items db menu_slug) as Hin
      by (rewrite Hsplit, elem_of_app; right; left).
    apply fetch_items_elem in Hin as (r0 & Hr0 & _ & Heq).
    assert (r0 = r) as ->.
    { apply (pk_unique_eq db); eauto using parent_chain_head.
      rewrite <- Hid, Heq. done. }
    destruct (render_menu_level_returns (fetch_items db menu_slug) (Some active)
                (list_to_set (r_id <$> r :: rest)) 0
                (fetch_items_ids db menu_slug Hu)) as (html & Hhtml).
    set (n := S (length (fetch_items db menu_slug))) in *.
    set (m := length (r :: rest)).
    assert (draw_menu reverse (m + n) db context menu_slug queries
            = Returned (SafeString html) (S queries + (length rest - 1))) as Hrun.
    { unfold draw_menu. rewrite E, <- E, Ef, Heq.
      rewrite (joined_walk_queries db r rest (m + n) (S queries) Hu Hchain)
        by (unfold m; lia).
      assert (render_menu_level reverse (m + n)
                (build_menu_tree (fetch_items db menu_slug)) None
                (Some (of_row r (Some (joined_parent db r))))
                (list_to_set (r_id <$> r :: rest)) 0 = Some html) as ->; [|done].
      rewrite Heq in Hhtml. clear -Hhtml.
      induction m as [|m IH]; [done|].
      by apply render_menu_level_mono. }
    by eexists _, _, _.
  - destruct (render_menu_level_returns (fetch_items db menu_slug) None ∅ 0
                (fetch_items_ids db menu_slug Hu)) as (html & Hhtml).
    exists (S (length (fetch_items db menu_slug))). eexists _, _.
    unfold draw_menu. rewrite E, <- E, Ef, Hhtml. done.
Qed.

End RenderTotal.

(** ** The order of siblings *)

(** C7. [build_menu_tree] files every item under its parent id, [None] for
    an item without parent, and nowhere else; a bucket lists its items in
    the order of the input.  The queryset holds the instances of the menu's
    rows ordered by (order, id), whatever the order of insertion into the
    table, so each bucket is ordered so.  [render_menu_level] emits the
    entries of a level in the order of its bucket: with unique ids the root
    level renders within a recursion depth of one more than the number of
    items, as the list container around the entries of the parentless
    items in queryset order, each entry holding the rendering of the level
    below it, whose entries are in the order of their bucket in turn. *)
Theorem build_menu_tree_preserves_order (db : Database) (menu_slug : string)
    (items : list MenuItem) :
  (∀ key,
      default [] (build_menu_tree items !! key)
      = filter (λ item, parent_id item = key) items)
  ∧ (∀ key item,
        item ∈ default [] (build_menu_tree items !! key)
        ↔ item ∈ items ∧ parent_id item = key)
  ∧ (∀ key, default [] (build_menu_tree items !! key) `sublist_of` items)
  ∧ (Sorted item_le items →
     ∀ key, Sorted item_le (default [] (build_menu_tree items !! key)))
  ∧ (∀ reverse fuel key active_item active_path level html,
        render_menu_level reverse (S fuel) (build_menu_tree items) key
                          active_item active_path level = Some html →
        ∃ subtrees,
          length subtrees = length (filter (λ item, parent_id item = key) items)
          ∧ Forall2
              (λ item children_html,
                 render_menu_level reverse fuel (build_menu_tree items)
                   (Some (id item)) active_item active_path (S level)
                 = Some children_html)
              (filter (λ item, parent_id item = key) items) subtrees
          ∧ html =
            match filter (λ item, parent_id item = key) items with
            | [] => EmptyString
            | bucket =>
                ul_open level
                +:+ sconcat (zip_with (entry_markup reverse active_item active_path)
                                      bucket subtrees)
                +:+ "</ul>" +:+ nl
            end)
  ∧ (NoDup (id <$> items) →
     ∀ reverse active_item active_path level,
       ∃ html subtrees,
         render_menu_level reverse (S (length items)) (build_menu_tree items) None
                           active_item active_path level = Some html
         ∧ Forall2
             (λ item children_html,
                render_menu_level reverse (length items) (build_menu_tree items)
                  (Some (id item)) active_item active_path (S level)
                = Some children_html)
             (filter (λ item, parent_id item = None) items) subtrees
         ∧ html =
           match filter (λ item, parent_id item = None) items with
           | [] => EmptyString
           | bucket =>
               ul_open level
               +:+ sconcat (zip_with (entry_markup reverse active_item active_path)
                                     bucket subtrees)
               +:+ "</ul>" +:+ nl
           end)
  ∧ Sorted item_le (fetch_items db menu_slug)
  ∧ fetch_items db menu_slug
    ≡ₚ (λ r, of_row r (Some (joined_parent db r)))
       <$> filter (in_menu db menu_slug) (item_table db)
  ∧ (∀ db',
        pk_unique db →
        menu_table db = menu_table db' →
        item_table db ≡ₚ item_table db' →
        fetch_items db' menu_slug = fetch_items db menu_slug).
Proof.
  split; [|split; [|split; [|split; [|split; [|split; [|split; [|split]]]]]]].
  - apply build_menu_tree_get.
  - intros key item. rewrite build_menu_tree_get. unfold bucket_of.
    rewrite list_elem_of_filter. tauto.
  - intros key. rewrite build_menu_tree_get. apply sublist_filter.
  - intros Hsorted key. rewrite build_menu_tree_get.
    by apply Sorted_item_le_filter.
  - intros reverse fuel key active_item active_path level html Hrender.
    apply render_menu_level_shape in Hrender as (subtrees & Hall & ->).
    rewrite build_menu_tree_get in *. exists subtrees.
    split; [symmetry; by eapply Forall2_length | by split].
  - intros Hnd reverse active_item active_path level.
    destruct (render_menu_level_returns reverse items active_item active_path
                level Hnd) as [html Hrender].
    exists html. pose proof Hrender as Hshape.
    apply render_menu_level_shape in Hshape as (subtrees & Hall & ->).
    rewrite build_menu_tree_get in *.
    assert (bucket_of items None = filter (λ item, parent_id item = None) items)
      as Hroot by (by apply list_filter_iff).
    rewrite Hroot in *. exists subtrees.
    split; [exact Hrender | split; [exact Hall | reflexivity]].
  - apply fetch_items_sorted.
  - unfold fetch_items. apply fmap_Permutation, merge_sort_Permutation.
  - intros db' Hu Hmenus Hperm. symmetry. by apply fetch_items_perm.
Qed.

(** The rows of the test suite, inserted in the opposite order, give the
    queryset of the test database; its root level renders as the entries of
    "Главная", "Услуги" and "О нас", in this order. *)
Lemma build_menu_tree_preserves_order_witness :
  Sorted item_le (fetch_items test_db "main_menu")
  ∧ (∀ key,
        Sorted item_le
          (default [] (build_menu_tree (fetch_items test_db "main_menu") !! key)))
  ∧ fetch_items test_db_reversed "main_menu" = fetch_items test_db "main_menu"
  ∧ fetch_items test_db_reversed "main_menu" = test_items
  ∧ ∃ html subtrees,
      render_menu_level reverse_urls 7
        (build_menu_tree (fetch_items test_db_reversed "main_menu")) None None ∅ 0
      = Some html
      ∧ html
        = ul_open 0
          +:+ sconcat (zip_with (entry_markup reverse_urls None ∅)
                                [test_home; test_services; test_about] subtrees)
          +:+ "</ul>" +:+ nl.
Proof.
  destruct (build_menu_tree_preserves_order test_db "main_menu"
              (fetch_items test_db "main_menu"))
    as (_ & _ & _ & Hbuckets & _ & _ & Hsorted & _ & Hperm).
  assert (fetch_items test_db_reversed "main_menu" = fetch_items test_db "main_menu")
    as Hsame.
  { apply Hperm.
    - unfold pk_unique. simpl. apply NoDup_ListNoDup.
      repeat constructor; simpl; intuition discriminate.
    - reflexivity.
    - unfold test_db_reversed. simpl item_table. symmetry.
      apply reverse_Permutation. }
  assert (fetch_items test_db "main_menu" = test_items) as Hitems by by vm_compute.
  split; [exact Hsorted|]. split; [exact (Hbuckets Hsorted)|].
  split; [exact Hsame|]. split; [by rewrite Hsame|].
  rewrite Hsame, Hitems.
  destruct (build_menu_tree_preserves_order test_db "main_menu" test_items)
    as (_ & _ & _ & _ & _ & Hrenders & _).
  destruct (Hrenders) with (reverse := reverse_urls) (active_item := @None MenuItem)
                           (active_path := (∅ : gset Z)) (level := 0%nat)
    as (html & subtrees & Hrender & _ & Hhtml).
  { unfold test_items. simpl. apply NoDup_ListNoDup.
    repeat constructor; simpl; intuition discriminate. }
  exists html, subtrees. split; [exact Hrender|].
  assert (filter (λ item, parent_id item = None) test_items
          = [test_home; test_services; test_about]) as Hroot by reflexivity.
  by rewrite Hroot in Hhtml.
Defined.



(** * Further properties of the tag *)

(** ** What a rendered level contains *)

Section LevelEntries.

Variable reverse : string → option string.

(** Every item of the bucket has its entry in the markup of the level,
    built around the markup of its own subtree. *)
Lemma render_level_entry fuel menu_dict key active_item active_path level html item :
  render_menu_level reverse (S fuel) menu_dict key active_item active_path level
    = Some html →
  item ∈ default [] (menu_dict !! key) →
  ∃ children_html,
    render_menu_level reverse fuel menu_dict (Some (id item))
                      active_item active_path (S level) = Some children_html
    ∧ occurs_in (entry_markup reverse active_item active_path item children_html)
                html.
Proof.
  intros Hrender Hin.
  apply render_menu_level_shape in Hrender as (subtrees & Hall & ->).
  destruct (default [] (menu_dict !! key)) as [|first bucket] eqn:E;
    [by apply elem_of_nil in Hin|].
  rewrite <- E in *. clear E first bucket.
  apply list_elem_of_lookup in Hin as [i Hi].
  destruct (Forall2_lookup_l _ _ _ _ _ Hall Hi) as (children_html & Hc & Hsub).
  exists children_html. split; [done|].
  apply occurs_in_app_r, occurs_in_app_l, occurs_in_sconcat.
  apply list_elem_of_lookup. exists i.
  rewrite lookup_zip_with, Hi. simpl. by rewrite Hc.
Qed.


Lemma occurs_in_entry_tail active_item active_path item children_html :
  occurs_in
    (anchor (get_url reverse item) (title item)
     +:+ subtree_markup
           (is_in_path active_path item || is_child_of_active active_item item)
           children_html
     +:+ li_close)
    (entry_markup reverse active_item active_path item children_html).
Proof. unfold entry_markup. apply occurs_in_app_r, occurs_in_refl. Qed.

(** The markup of the level of an item's siblings occurs in the markup of
    the root level, provided the item has a depth within the list. *)
Lemma render_level_of_depth items active_item active_path item n :
  depth items item n →
  ∀ fuel html,
    render_menu_level reverse (S n + fuel) (build_menu_tree items) None
                      active_item active_path 0 = Some html →
    ∃ level_html,
      render_menu_level reverse (S fuel) (build_menu_tree items) (parent_id item)
                        active_item active_path n = Some level_html
      ∧ occurs_in level_html html.
Proof.
  induction 1 as [item Hin Hroot | item up n Hin Hup Hp Hdepth IH];
    intros fuel html Hrender.
  - rewrite Hroot. exists html. split; [done | apply occurs_in_refl].
  - replace (S (S n) + fuel)%nat with (S n + S fuel)%nat in Hrender by lia.
    apply IH in Hrender as (up_level & Hup_level & Hocc).
    destruct (render_level_entry _ _ _ _ _ _ _ up Hup_level)
      as (children_html & Hchildren & Hentry).
    { rewrite build_menu_tree_get. unfold bucket_of.
      by apply list_elem_of_filter. }
    rewrite Hp. exists children_html. split; [done|].
    eapply occurs_in_trans; [|exact Hocc].
    eapply occurs_in_trans; [|exact Hentry].
    unfold entry_markup.
    do 2 apply occurs_in_app_r. apply occurs_in_app_l, occurs_in_subtree_markup.
Qed.

End LevelEntries.

(** ** Which items are rendered *)



(** X2. Nothing else is rendered: the markup of the root level is the markup
    of the list restricted to the items that have a depth, that is, to the
    items from which the parent ids lead to an item without parent.  Items
    on a cycle of parent ids are left out like items with a dangling parent
    id. *)
Theorem only_rooted_items_are_rendered (reverse : string → option string)
    (items : list MenuItem) (keep : MenuItem → Prop) `{∀ x, Decision (keep x)}
    (active_item : option MenuItem) (active_path : gset Z) (fuel level : nat) :
  (∀ item, item ∈ items → (keep item ↔ ∃ n, depth items item n)) →
  render_menu_level reverse fuel (build_menu_tree items) None
                    active_item active_path level
  = render_menu_level reverse fuel (build_menu_tree (filter keep items)) None
                      active_item active_path level.
Proof.
  intros Hkeep. symmetry. apply render_menu_level_prune; [| |by left].
  - intros item Hin Hroot. apply Hkeep; [done|]. exists 0%nat. by constructor.
  - intros item up Hin Hup Hk Hp. apply Hkeep; [done|].
    apply Hkeep in Hk as [n Hn]; [|done].
    exists (S n). by apply (depth_child items item up n).
Qed.

Lemma cyclic_items_no_depth (n : nat) :
  ¬ depth [ home_item; ping; pong ] ping n ∧ ¬ depth [ home_item; ping; pong ] pong n.
Proof.
  induction n as [|n [IHping IHpong]].
  - split; inversion 1; discriminate.
  - split; inversion 1 as [| ? up ? _ Hup Hp Hd]; subst.
    + apply elem_of_cons in Hup as [-> | Hup];
        [discriminate|apply elem_of_cons in Hup as [-> | Hup];
          [discriminate|apply list_elem_of_singleton in Hup as ->]].
      by apply IHpong.
    + apply elem_of_cons in Hup as [-> | Hup];
        [discriminate|apply elem_of_cons in Hup as [-> | Hup];
          [|apply list_elem_of_singleton in Hup as ->; discriminate]].
      by apply IHping.
Qed.

(** In [cyclic_db] only "Home" has a depth: the menu renders as if "Ping"
    and "Pong" were not there. *)
Lemma only_rooted_items_are_rendered_witness :
  render_menu_level reverse_urls 2
    (build_menu_tree (fetch_items cyclic_db "main_menu")) None None ∅ 0
  = render_menu_level reverse_urls 2
      (build_menu_tree (filter (λ item, id item = 1)
                               (fetch_items cyclic_db "main_menu")))
      None None ∅ 0.
Proof.
  apply only_rooted_items_are_rendered.
  assert (fetch_items cyclic_db "main_menu" = [ home_item; ping; pong ]) as ->
    by (by vm_compute).
  intros item Hin.
  apply elem_of_cons in Hin as [-> | Hin];
    [|apply elem_of_cons in Hin as [-> | Hin];
      [|apply list_elem_of_singleton in Hin as ->]].
  - split; [|done]. intros _. exists 0%nat. apply depth_root; [left | reflexivity].
  - split; [discriminate|]. intros [n Hn]. by apply cyclic_items_no_depth in Hn.
  - split; [discriminate|]. intros [n Hn]. by apply cyclic_items_no_depth in Hn.
Defined.

(** ** Expansion, seen from the tag *)

Lemma subtree_markup_shown children_html :
  subtree_markup true children_html = children_html.
Proof.
  unfold subtree_markup. destruct (truthy children_html) eqn:E; [done|].
  by apply truthy_false in E.
Qed.

Lemma subtree_markup_hidden children_html :
  children_html ≠ EmptyString →
  subtree_markup false children_html = hidden children_html.
Proof. intros Hne. apply truthy_true in Hne. unfold subtree_markup. by rewrite Hne. Qed.

(** A returning call with an active item whose row heads a parent chain
    rendered the root level with the ids of that chain as ancestor set. *)
Lemma draw_menu_returned_chain (reverse : string → option string) (fuel : nat)
    (db : Database) (context : option HttpRequest) (menu_slug : string)
    (queries : nat) (value : TemplateValue) (queries' : nat)
    (active : MenuItem) (r : Row) (rest : list Row) :
  pk_unique db →
  find_active_item reverse (fetch_items db menu_slug) (current_path context)
  = Some active →
  id active = r_id r →
  parent_chain db (r :: rest) →
  draw_menu reverse fuel db context menu_slug queries = Returned value queries' →
  ∃ html,
    value = SafeString html
    ∧ render_menu_level reverse fuel (build_menu_tree (fetch_items db menu_slug))
        None (Some active) (list_to_set (r_id <$> r :: rest)) 0 = Some html.
Proof.
  intros Hu Ef Hid Hchain. unfold draw_menu.
  destruct (fetch_items db menu_slug) as [|first others] eqn:E; [done|].
  rewrite <- E in *. rewrite Ef.
  pose proof Ef as Hsplit.
  apply find_active_item_Some in Hsplit as (before & after & Hsplit & _).
  assert (active ∈ fetch_items db menu_slug) as Hin
    by (rewrite Hsplit, elem_of_app; right; left).
  apply fetch_items_elem in Hin as (r0 & Hr0 & _ & Heq).
  assert (r0 = r) as ->.
  { apply (pk_unique_eq db); eauto using parent_chain_head.
    by rewrite <- Hid, Heq. }
  destruct (get_active_path fuel db (Some active) (S queries))
    as [active_path q| |] eqn:Ep; [|done..].
  pose proof (joined_walk_queries db r rest (length (r :: rest) + fuel) (S queries)
                Hu Hchain ltac:(lia)) as Hwalk.
  rewrite <- Heq in Hwalk. unfold get_active_path in *.
  rewrite get_active_path_loop_more_fuel in Hwalk by (by rewrite Ep).
  rewrite Ep in Hwalk. injection Hwalk as -> ->.
  destruct (render_menu_level reverse fuel _ None _ _ 0) as [html|]; [|done].
  intros [= <- _]. by exists html.
Qed.

(** X3. When the request path equals no item's resolved URL, the call
    sends one query and renders with no active item and an empty ancestor
    set.  In every level of that rendering, the entry of an item whose
    subtree is non-empty is the list entry without class, the item's anchor,
    then the container [<div style="display:none;">] holding the whole
    markup of the subtree, then the end of the entry: the nested levels are
    in the page, inside hidden containers. *)
Theorem no_match_hides_nested_levels (reverse : string → option string)
    (fuel : nat) (db : Database) (context : option HttpRequest)
    (menu_slug : string) (queries : nat) (html : string) (queries' : nat) :
  find_active_item reverse (fetch_items db menu_slug) (current_path context) = None →
  draw_menu reverse fuel db context menu_slug queries
  = Returned (SafeString html) queries' →
  queries' = S queries
  ∧ render_menu_level reverse fuel (build_menu_tree (fetch_items db menu_slug))
      None None ∅ 0 = Some html
  ∧ ∀ depth_fuel key level level_html item,
      render_menu_level reverse (S depth_fuel)
        (build_menu_tree (fetch_items db menu_slug)) key None ∅ level
      = Some level_html →
      item ∈ default [] (build_menu_tree (fetch_items db menu_slug) !! key) →
      ∃ children_html,
        render_menu_level reverse depth_fuel
          (build_menu_tree (fetch_items db menu_slug)) (Some (id item)) None ∅
          (S level)
        = Some children_html
        ∧ (children_html ≠ EmptyString →
           occurs_in ("  <li class=" +:+ dq +:+ dq +:+ ">" +:+ nl
                      +:+ anchor (get_url reverse item) (title item)
                      +:+ ("<div style=" +:+ dq +:+ "display:none;" +:+ dq +:+ ">"
                           +:+ nl +:+ children_html +:+ "</div>" +:+ nl)
                      +:+ "  </li>" +:+ nl)
                     level_html).
Proof.
  intros Ef Hdraw. split; [|split].
  - unfold draw_menu in Hdraw.
    destruct (fetch_items db menu_slug) as [|first others] eqn:E; [done|].
    rewrite <- E in *. rewrite Ef in Hdraw.
    destruct (render_menu_level reverse fuel _ None None ∅ 0); [|done].
    by injection Hdraw.
  - unfold draw_menu in Hdraw.
    destruct (fetch_items db menu_slug) as [|first others] eqn:E; [done|].
    rewrite <- E in *. rewrite Ef in Hdraw.
    destruct (render_menu_level reverse fuel _ None None ∅ 0); [|done].
    by injection Hdraw as <- _.
  - intros depth_fuel key level level_html item Hlevel Hin.
    destruct (render_level_entry reverse _ _ _ _ _ _ _ _ Hlevel Hin)
      as (children_html & Hc & Hentry).
    exists children_html. split; [done|]. intros Hne.
    assert (is_in_path ∅ item || is_child_of_active None item = false) as Hrule.
    { unfold is_in_path. simpl. rewrite orb_false_r.
      apply bool_decide_eq_false. set_solver. }
    unfold entry_markup in Hentry.
    rewrite Hrule, subtree_markup_hidden in Hentry by done.
    exact Hentry.
Qed.

(** The test menu, requested at a path that is no item's URL: the level
    below "Услуги" is rendered, and stands in the page inside the hidden
    container of that entry. *)
Lemma no_match_hides_nested_levels_witness :
  ∃ html children_html,
    draw_menu reverse_urls 4 test_db (Some (mkRequest "/nonexistent/")) "main_menu" 0
    = Returned (SafeString html) 1
    ∧ render_menu_level reverse_urls 3
        (build_menu_tree (fetch_items test_db "main_menu")) (Some 2) None ∅ 1
      = Some children_html
    ∧ children_html ≠ EmptyString
    ∧ occurs_in ("  <li class=" +:+ dq +:+ dq +:+ ">" +:+ nl
                 +:+ anchor "/services/" "Услуги"
                 +:+ ("<div style=" +:+ dq +:+ "display:none;" +:+ dq +:+ ">"
                      +:+ nl +:+ children_html +:+ "</div>" +:+ nl)
                 +:+ "  </li>" +:+ nl)
                html.
Proof.
  destruct (draw_menu reverse_urls 4 test_db (Some (mkRequest "/nonexistent/"))
              "main_menu" 0) as [[s | html] q | |] eqn:E; try (by vm_compute in E).
  destruct (no_match_hides_nested_levels reverse_urls 4 test_db
              (Some (mkRequest "/nonexistent/")) "main_menu" 0 html q)
    as (-> & Hrender & Hhidden); [by vm_compute | exact E |].
  destruct (Hhidden 3%nat None 0%nat html test_services Hrender)
    as (children_html & Hc & Hentry).
  { assert (fetch_items test_db "main_menu" = test_items) as -> by by vm_compute.
    rewrite build_menu_tree_get. unfold bucket_of, test_items.
    apply list_elem_of_filter. split; [done|]. do 3 right. left. }
  assert (children_html ≠ EmptyString) as Hne.
  { pose proof Hc as Hc'. vm_compute in Hc'. injection Hc' as <-. discriminate. }
  exists html, children_html.
  split; [done|]. split; [exact Hc|]. split; [exact Hne|].
  exact (Hentry Hne).
Defined.

(** X4. With an active item whose row heads a parent chain, the root level
    is rendered with the ids of the chain as ancestor set.  In every
    level of that rendering, an item of the chain (the active item and its
    ancestors) and an item whose parent id is the active item's id is
    followed by the markup of its subtree as it is, outside any hidden
    container; the entry of an item with the active item's id carries the
    class [active].  So the subtrees two levels below the active item are
    in the open. *)
Theorem active_branch_is_expanded (reverse : string → option string)
    (fuel : nat) (db : Database) (context : option HttpRequest)
    (menu_slug : string) (queries : nat) (html : string) (queries' : nat)
    (active : MenuItem) (r : Row) (rest : list Row) :
  pk_unique db →
  find_active_item reverse (fetch_items db menu_slug) (current_path context)
  = Some active →
  id active = r_id r →
  parent_chain db (r :: rest) →
  draw_menu reverse fuel db context menu_slug queries
  = Returned (SafeString html) queries' →
  render_menu_level reverse fuel (build_menu_tree (fetch_items db menu_slug))
    None (Some active) (list_to_set (r_id <$> r :: rest)) 0 = Some html
  ∧ ∀ depth_fuel key level level_html item,
      render_menu_level reverse (S depth_fuel)
        (build_menu_tree (fetch_items db menu_slug)) key (Some active)
        (list_to_set (r_id <$> r :: rest)) level
      = Some level_html →
      item ∈ default [] (build_menu_tree (fetch_items db menu_slug) !! key) →
      ∃ children_html,
        render_menu_level reverse depth_fuel
          (build_menu_tree (fetch_items db menu_slug)) (Some (id item))
          (Some active) (list_to_set (r_id <$> r :: rest)) (S level)
        = Some children_html
        ∧ (id item ∈ (r_id <$> r :: rest) ∨ parent_id item = Some (id active) →
           occurs_in (anchor (get_url reverse item) (title item)
                      +:+ children_html +:+ li_close)
                     level_html)
        ∧ (id item = id active →
           occurs_in (li_open "active"
                      +:+ anchor (get_url reverse item) (title item))
                     level_html).
Proof.
  intros Hu Ef Hid Hchain Hdraw. split.
  - destruct (draw_menu_returned_chain reverse fuel db context menu_slug queries
                _ _ active r rest Hu Ef Hid Hchain Hdraw) as (html' & [= <-] & Hr).
    exact Hr.
  - intros depth_fuel key level level_html item Hlevel Hin.
    destruct (render_level_entry reverse _ _ _ _ _ _ _ _ Hlevel Hin)
      as (children_html & Hc & Hentry).
    exists children_html. split; [done|]. split.
    + intros Hrule.
      eapply occurs_in_trans; [|exact Hentry].
      pose proof (occurs_in_entry_tail reverse (Some active)
                    (list_to_set (r_id <$> r :: rest)) item children_html) as Htail.
      assert (is_in_path (list_to_set (r_id <$> r :: rest)) item
              || is_child_of_active (Some active) item = true) as Hshow.
      { apply orb_true_iff. destruct Hrule as [Hpath | Hchild].
        - left. apply bool_decide_eq_true. by apply elem_of_list_to_set.
        - right. by apply bool_decide_eq_true. }
      rewrite Hshow in Htail. by rewrite subtree_markup_shown in Htail.
    + intros Hactive.
      eapply occurs_in_trans; [|exact Hentry].
      unfold entry_markup, is_active. rewrite bool_decide_eq_true_2 by done.
      exists EmptyString. eexists. by rewrite sapp_nil_l, !sapp_assoc.
Qed.

(** The test menu at the path of "Веб-разработка": the chain is that item
    and "Услуги". *)
Lemma active_branch_is_expanded_witness :
  ∃ html,
    draw_menu reverse_urls 4 test_db (Some (mkRequest "/services/web/")) "main_menu" 0
    = Returned (SafeString html) 1
    ∧ render_menu_level reverse_urls 4
        (build_menu_tree (fetch_items test_db "main_menu")) None (Some test_web)
        (list_to_set [4; 2]) 0
      = Some html.
Proof.
  destruct (draw_menu reverse_urls 4 test_db (Some (mkRequest "/services/web/"))
              "main_menu" 0) as [[s | html] q | |] eqn:E; try (by vm_compute in E).
  assert (q = 1%nat) as -> by (vm_compute in E; congruence).
  exists html. split; [done|].
  refine (proj1 (active_branch_is_expanded reverse_urls 4 test_db
                   (Some (mkRequest "/services/web/")) "main_menu" 0 html 1 test_web
                   (mkRow 4 1 (Some 2) "Веб-разработка" "/services/web/" EmptyString 0)
                   [ mkRow 2 1 None "Услуги" "/services/" EmptyString 1 ]
                   _ _ _ _ E)).
  - unfold pk_unique. simpl. apply NoDup_ListNoDup.
    repeat constructor; simpl; intuition discriminate.
  - by vm_compute.
  - reflexivity.
  - apply chain_step; [do 3 right; left | reflexivity |].
    apply chain_root; [right; left | reflexivity].
Defined.

(** ** What get_active_path returns *)

Lemma get_active_path_loop_returned (db : Database) (fuel : nat) :
  ∀ r item path queries path' queries',
    loaded db r item →
    get_active_path_loop fuel db path (Some item) queries = Returned path' queries' →
    ∃ rest,
      parent_chain db (r :: rest)
      ∧ path' = path ∪ list_to_set (r_id <$> r :: rest)
      ∧ (queries ≤ queries' ≤ queries + length rest)%nat.
Proof.
  induction fuel as [|fuel IH]; intros r item path queries path' queries' Hload Hrun;
    [done|].
  simpl in Hrun. unfold parent in Hrun.
  rewrite (loaded_id _ _ _ Hload) in Hrun.
  inversion Hload as [? Hin Heq | ? Hin Hroot Heq | ? rp p Hin Hparent Hp Heq];
    subst; simpl in Hrun.
  - destruct (r_parent_id r) as [pk|] eqn:Hparent.
    + destruct (get_row db pk) as [rp|] eqn:Hrow; [|done].
      apply get_row_Some in Hrow as [Hrp <-].
      apply (IH rp) in Hrun as (rest & Hchain & -> & Hq); [|by constructor].
      exists (rp :: rest). split; [by constructor|]. split; [|simpl; lia].
      rewrite !fmap_cons, !list_to_set_cons. by rewrite (assoc_L (∪) path).
    + rewrite get_active_path_loop_None in Hrun. injection Hrun as <- <-.
      exists []. split; [by constructor|]. split; [|simpl; lia].
      simpl. by rewrite (right_id_L ∅ (∪)).
  - rewrite get_active_path_loop_None in Hrun. injection Hrun as <- <-.
    exists []. split; [by constructor|]. split; [|simpl; lia].
    simpl. by rewrite (right_id_L ∅ (∪)).
  - apply (IH rp) in Hrun as (rest & Hchain & -> & Hq); [|done].
    exists (rp :: rest). split; [by constructor|]. split; [|simpl; lia].
    rewrite !fmap_cons, !list_to_set_cons. by rewrite (assoc_L (∪) path).
Qed.

(** X5. [get_active_path] returns only for an item from which the parent
    ids lead to a row without parent; what it returns is then exactly the
    set of the ids of the rows on that way, the item's own id included, and
    it has sent at most one query per ancestor. *)
Theorem get_active_path_returns_chain_ids (db : Database) (r : Row)
    (item : MenuItem) (fuel queries : nat) (path : gset Z) (queries' : nat) :
  loaded db r item →
  get_active_path fuel db (Some item) queries = Returned path queries' →
  ∃ rest,
    parent_chain db (r :: rest)
    ∧ path = list_to_set (r_id <$> r :: rest)
    ∧ id item ∈ path
    ∧ (queries ≤ queries' ≤ queries + length rest)%nat.
Proof.
  intros Hload Hrun. unfold get_active_path in Hrun.
  apply (get_active_path_loop_returned db fuel r) in Hrun
    as (rest & Hchain & -> & Hq); [|done].
  exists rest. rewrite (left_id_L ∅ (∪)). repeat split; [done| |lia..].
  rewrite (loaded_id _ _ _ Hload). rewrite fmap_cons, list_to_set_cons.
  apply elem_of_union_l, elem_of_singleton. done.
Qed.

(** The walk from the queryset's instance of C in [chain_db]. *)
Lemma get_active_path_returns_chain_ids_witness :
  ∃ rest,
    parent_chain chain_db (row_c :: rest)
    ∧ ({[ 4; 3; 2; 1 ]} : gset Z) = list_to_set (r_id <$> row_c :: rest).
Proof.
  destruct (get_active_path_returns_chain_ids chain_db row_c item_c 4 0
              {[ 4; 3; 2; 1 ]} 2) as (rest & Hchain & Hpath & _).
  - apply (loaded_join chain_db row_c row_b); [do 3 right; left | reflexivity |].
    apply loaded_lazy. do 2 right; left.
  - by vm_compute.
  - by exists rest.
Defined.

(** ** The dictionary as a partition of the items *)

Lemma build_menu_tree_flatten (items : list MenuItem) :
  mjoin (snd <$> map_to_list (build_menu_tree items)) ≡ₚ items.
Proof.
  induction items as [|item items IH] using rev_ind.
  - unfold build_menu_tree. simpl. by rewrite map_to_list_empty.
  - rewrite build_menu_tree_snoc.
    set (m := build_menu_tree items) in *. set (k := parent_id item).
    destruct (m !! k) as [bucket|] eqn:E.
    + set (m' := alter (λ bucket, bucket ++ [item]) k m).
      assert (m' !! k = Some (bucket ++ [item])) as E'
        by (unfold m'; by rewrite lookup_alter_eq, E).
      assert (delete k m' = delete k m) as Hdel.
      { apply map_eq. intros j. destruct (decide (k = j)) as [<- | Hne].
        - by rewrite !lookup_delete_eq.
        - rewrite !lookup_delete_ne by done. unfold m'.
          by rewrite lookup_alter_ne. }
      rewrite <- (map_to_list_delete m' k _ E'), Hdel.
      etrans; [|apply Permutation_app_tail, IH].
      rewrite <- (map_to_list_delete m k _ E).
      rewrite !fmap_cons. simpl.
      rewrite <- !(assoc_L (++)). apply Permutation_app_head.
      apply Permutation_app_comm.
    + rewrite alter_insert_eq. simpl.
      rewrite map_to_list_insert by done.
      rewrite fmap_cons. simpl.
      etrans; [|apply Permutation_app_tail, IH]. apply Permutation_cons_append.
Qed.

(** X6. The dictionary of [build_menu_tree] partitions its input: its keys
    are exactly the parent ids that occur, no bucket is empty, and the
    buckets together hold every item exactly as often as the input does.
    An empty input gives the empty dictionary. *)
Theorem build_menu_tree_partition (items : list MenuItem) :
  dom (build_menu_tree items) = list_to_set (parent_id <$> items)
  ∧ (∀ key, build_menu_tree items !! key ≠ Some [])
  ∧ mjoin (snd <$> map_to_list (build_menu_tree items)) ≡ₚ items
  ∧ (build_menu_tree items = ∅ ↔ items = []).
Proof.
  assert (∀ key, key ∈ dom (build_menu_tree items) ↔ key ∈ parent_id <$> items)
    as Hdom.
  { intros key. rewrite elem_of_dom, build_menu_tree_lookup.
    rewrite list_elem_of_fmap. split.
    - intros [bucket Hb].
      destruct (bucket_of items key) as [|item rest] eqn:E; [done|].
      assert (item ∈ bucket_of items key) as Hin by (rewrite E; left).
      apply list_elem_of_filter in Hin as [Hp Hin]. by exists item.
    - intros (item & -> & Hin).
      assert (item ∈ bucket_of items (parent_id item)) as Hb
        by (by apply list_elem_of_filter).
      destruct (bucket_of items (parent_id item)); [by apply elem_of_nil in Hb|].
      by eexists. }
  split; [|split; [|split]].
  - apply set_eq. intros key. rewrite Hdom. by rewrite elem_of_list_to_set.
  - intros key. rewrite build_menu_tree_lookup.
    by destruct (bucket_of items key).
  - apply build_menu_tree_flatten.
  - split.
    + intros Hempty. destruct items as [|item items]; [done|].
      assert (parent_id item ∈ dom (build_menu_tree (item :: items))) as Hin
        by (apply Hdom; rewrite fmap_cons; left).
      rewrite Hempty, dom_empty_L in Hin. by apply not_elem_of_empty in Hin.
    + by intros ->.
Qed.

(** ** Links and the active mark *)

(** X7. As long as the resolver never answers the empty string, the link
    of an item is never empty: it is the resolved route of [named_url], or
    the explicit [url], or ["#"]; and it is ["#"] by default only, when
    [url] is empty and [named_url] is empty or does not resolve. *)
Theorem get_url_is_never_empty (reverse : string → option string)
    (item : MenuItem) :
  (∀ viewname resolved, reverse viewname = Some resolved → resolved ≠ EmptyString) →
  get_url reverse item ≠ EmptyString
  ∧ (reverse (named_url item) = Some (get_url reverse item)
     ∨ get_url reverse item = url item
     ∨ (get_url reverse item = "#" ∧ url item = EmptyString))
  ∧ (url item ≠ EmptyString → named_url item = EmptyString →
     get_url reverse item = url item).
Proof.
  intros Hrev. split; [by apply get_url_nonempty|]. unfold get_url. split.
  - destruct (truthy (named_url item)) eqn:En.
    + destruct (reverse (named_url item)) as [resolved|] eqn:Er; [by left|].
      right. destruct (truthy (url item)) eqn:Eu; [by left|].
      right. by apply truthy_false in Eu.
    + right. destruct (truthy (url item)) eqn:Eu; [by left|].
      right. by apply truthy_false in Eu.
  - intros Hu Hn. rewrite Hn. simpl. apply truthy_true in Hu. by rewrite Hu.
Qed.

(** The project's routes never resolve to the empty string. *)
Lemma get_url_is_never_empty_witness :
  get_url reverse_urls test_home ≠ EmptyString
  ∧ get_url reverse_urls (mkMenuItem 9 1 None "About" EmptyString "about" 0 None)
    ≠ EmptyString.
Proof.
  split.
  - apply (get_url_is_never_empty reverse_urls test_home).
    apply reverse_urls_nonempty.
  - apply (get_url_is_never_empty reverse_urls
             (mkMenuItem 9 1 None "About" EmptyString "about" 0 None)).
    apply reverse_urls_nonempty.
Defined.

(** X8. In the markup of a level rendered with the result of
    [find_active_item] as active item, over items with distinct ids, the
    entry of an item opens with [<li class="active">] when the item is the
    one that [find_active_item] returned, and with [<li class="">] when it
    is not: the class marks the first item whose resolved URL is the
    request path and no other entry, so a later item with the same resolved
    URL is rendered without it, and without a match no entry carries it. *)
Theorem active_class_marks_first_match_only (reverse : string → option string)
    (items : list MenuItem) (current : string) (fuel : nat) (key : option Z)
    (active_path : gset Z) (level : nat) (html : string) :
  NoDup (id <$> items) →
  render_menu_level reverse (S fuel) (build_menu_tree items) key
    (find_active_item reverse items current) active_path level = Some html →
  ∃ entries,
    html = match default [] (build_menu_tree items !! key) with
           | [] => EmptyString
           | _ :: _ => ul_open level +:+ sconcat entries +:+ "</ul>" +:+ nl
           end
    ∧ Forall2
        (λ item entry,
           ∃ subtree,
             (find_active_item reverse items current = Some item →
              entry = "  <li class=" +:+ dq +:+ "active" +:+ dq +:+ ">" +:+ nl
                      +:+ anchor (get_url reverse item) (title item)
                      +:+ subtree +:+ "  </li>" +:+ nl)
             ∧ (find_active_item reverse items current ≠ Some item →
                entry = "  <li class=" +:+ dq +:+ dq +:+ ">" +:+ nl
                        +:+ anchor (get_url reverse item) (title item)
                        +:+ subtree +:+ "  </li>" +:+ nl))
        (default [] (build_menu_tree items !! key)) entries.
Proof.
  intros Hnd Hrender.
  apply render_menu_level_shape in Hrender as (subtrees & Hall & ->).
  assert (∀ item, item ∈ default [] (build_menu_tree items !! key) → item ∈ items)
    as Hsub.
  { intros item. rewrite build_menu_tree_get. unfold bucket_of.
    rewrite list_elem_of_filter. tauto. }
  exists (zip_with (entry_markup reverse (find_active_item reverse items current)
                                 active_path)
                   (default [] (build_menu_tree items !! key)) subtrees).
  split; [by destruct (default [] (build_menu_tree items !! key))|].
  induction Hall as [|item children_html bucket subtrees _ Hall IH];
    [constructor|].
  simpl. constructor; [|apply IH; intros other Hother; apply Hsub; by right].
  exists (subtree_markup
            (is_in_path active_path item
             || is_child_of_active (find_active_item reverse items current) item)
            children_html).
  unfold entry_markup. split.
  - intros Hfind. rewrite Hfind. unfold is_active at 1.
    by rewrite bool_decide_eq_true_2.
  - intros Hfind.
    destruct (find_active_item reverse items current) as [active|] eqn:Ef;
      [|reflexivity].
    unfold is_active at 1. rewrite bool_decide_eq_false_2; [reflexivity|].
    intros Hid. destruct Hfind. f_equal. symmetry.
    apply find_active_item_Some in Ef as (before & after & Hsplit & _).
    apply (ids_unique items); [done| |by rewrite Hsplit, elem_of_app; right; left|done].
    apply Hsub. left.
Qed.

(** Two items without URL both link to ["#"]; at the path ["#"] the entry
    of the first one carries the class and the entry of the second one does
    not. *)
Lemma active_class_marks_first_match_only_witness :
  ∃ html first second,
    render_menu_level reverse_urls 2
      (build_menu_tree
         [ mkMenuItem 1 1 None "One" EmptyString EmptyString 0 None;
           mkMenuItem 2 1 None "Two" EmptyString EmptyString 1 None ])
      None
      (find_active_item reverse_urls
         [ mkMenuItem 1 1 None "One" EmptyString EmptyString 0 None;
           mkMenuItem 2 1 None "Two" EmptyString EmptyString 1 None ] "#")
      ∅ 0
    = Some html
    ∧ html
      = ul_open 0
        +:+ sconcat
              [ "  <li class=" +:+ dq +:+ "active" +:+ dq +:+ ">" +:+ nl
                +:+ anchor "#" "One" +:+ first +:+ "  </li>" +:+ nl;
                "  <li class=" +:+ dq +:+ dq +:+ ">" +:+ nl
                +:+ anchor "#" "Two" +:+ second +:+ "  </li>" +:+ nl ]
        +:+ "</ul>" +:+ nl.
Proof.
  set (one := mkMenuItem 1 1 None "One" EmptyString EmptyString 0 None).
  set (two := mkMenuItem 2 1 None "Two" EmptyString EmptyString 1 None).
  destruct (render_menu_level reverse_urls 2 (build_menu_tree [one; two]) None
              (find_active_item reverse_urls [one; two] "#") ∅ 0)
    as [html|] eqn:E; [|by vm_compute in E].
  destruct (active_class_marks_first_match_only reverse_urls [one; two] "#"
              1 None ∅ 0 html) as (entries & Hhtml & Hall); [|exact E|].
  { simpl. apply NoDup_ListNoDup. repeat constructor; simpl; intuition discriminate. }
  assert (default [] (build_menu_tree [one; two] !! None) = [one; two]) as Hroot
    by reflexivity.
  rewrite Hroot in Hhtml, Hall.
  apply Forall2_cons_inv_l in Hall
    as (entry1 & rest & (first & Hfirst & _) & Hall & ->).
  apply Forall2_cons_inv_l in Hall
    as (entry2 & rest' & (second & _ & Hsecond) & Hall & ->).
  apply Forall2_nil_inv_l in Hall as ->.
  exists html, first, second. split; [done|].
  rewrite Hhtml, Hfirst, Hsecond; [reflexivity| |reflexivity].
  intros Hfind. vm_compute in Hfind. discriminate.
Defined.

(** ** Instances of the counting and termination results *)

Lemma test_db_pk_unique : pk_unique test_db.
Proof.
  unfold pk_unique. simpl. apply NoDup_ListNoDup.
  repeat constructor; simpl; intuition discriminate.
Qed.

(** The test menu at the path of its third level: the active item has two
    ancestors, and the call sends two queries. *)
Lemma draw_menu_query_count_witness :
  ∃ value,
    draw_menu reverse_urls 4 test_db (Some (mkRequest "/services/web/design/"))
              "main_menu" 0
    = Returned value (1 + (2 - 1)).
Proof.
  destruct (draw_menu reverse_urls 4 test_db
              (Some (mkRequest "/services/web/design/")) "main_menu" 0)
    as [value q | |] eqn:E; try (by vm_compute in E).
  pose proof (draw_menu_query_count reverse_urls 4 test_db
                (Some (mkRequest "/services/web/design/")) "main_menu" 0 value q
                test_db_pk_unique E) as Hcount.
  assert (find_active_item reverse_urls (fetch_items test_db "main_menu")
            (current_path (Some (mkRequest "/services/web/design/")))
          = Some test_design) as Hfind by (by vm_compute).
  rewrite Hfind in Hcount.
  rewrite (Hcount (mkRow 6 1 (Some 4) "Веб-дизайн" "/services/web/design/"
                         EmptyString 0)
                  [ mkRow 4 1 (Some 2) "Веб-разработка" "/services/web/" EmptyString 0;
                    mkRow 2 1 None "Услуги" "/services/" EmptyString 1 ]).
  - by exists value.
  - reflexivity.
  - apply chain_step; [do 5 right; left | reflexivity |].
    apply chain_step; [do 3 right; left | reflexivity |].
    apply chain_root; [right; left | reflexivity].
Defined.

(** [render_menu_level] with more room for nested calls gives the same
    markup. *)
Lemma render_menu_level_more_fuel (reverse : string → option string)
    (more fuel : nat) (menu_dict : gmap (option Z) (list MenuItem))
    (parent_id : option Z) (active_item : option MenuItem)
    (active_path : gset Z) (level : nat) (html : string) :
  render_menu_level reverse fuel menu_dict parent_id active_item active_path level
  = Some html →
  render_menu_level reverse (more + fuel) menu_dict parent_id active_item
                    active_path level
  = Some html.
Proof.
  intros Hrender. induction more as [|more IH]; [done|].
  simpl. by apply render_menu_level_mono.
Qed.

(** X10. The calls of [render_menu_level] nest two deeper than the depth of
    the deepest item that the parent ids link to the root, and no deeper:
    the call of the level below a deepest item is the innermost one.  Given
    room for [limit] nested calls, the rendering of the root level produces
    its markup exactly when every such item has a depth of [limit - 2] at
    most.  So a menu nested as deep as the recursion limit of the
    interpreter does not render, and the items that no chain of parent ids
    links to the root, cycles among them included, cost no depth. *)
Theorem render_menu_level_recursion_depth (reverse : string → option string)
    (items : list MenuItem) (active_item : option MenuItem)
    (active_path : gset Z) (limit : nat) :
  (0 < limit)%nat →
  ((∃ html,
       render_menu_level reverse limit (build_menu_tree items) None
                         active_item active_path 0 = Some html)
   ↔ (∀ item n, depth items item n → (n + 2 ≤ limit)%nat)).
Proof.
  intros Hlimit. split.
  - intros [html Hrender] item n Hdepth.
    destruct (decide (n + 2 ≤ limit)%nat) as [|Hdeep]; [done|]. exfalso.
    apply (render_menu_level_more_fuel reverse (S n - limit)) in Hrender.
    replace (S n - limit + limit)%nat with (S n + 0)%nat in Hrender by lia.
    destruct (render_level_of_depth reverse items active_item active_path item n
                Hdepth 0%nat html Hrender) as (level_html & Hlevel & _).
    destruct (render_level_entry reverse _ _ _ _ _ _ _ item Hlevel)
      as (children_html & Hchildren & _); [|done].
    rewrite build_menu_tree_get. unfold bucket_of.
    apply list_elem_of_filter. split; [done|]. by destruct Hdepth.
  - intros Hbound.
    destruct (render_menu_level reverse limit (build_menu_tree items) None
                active_item active_path 0) as [html|] eqn:E; [by exists html|].
    exfalso.
    apply render_menu_level_None_descent in E as (path & Hlen & Hdescent).
    destruct (lookup_lt_is_Some_2 path (limit - 1)) as [item Hitem]; [lia|].
    pose proof (descent_depth items None path 0 Hdescent
                  (λ item Hin Hroot, depth_root items item Hin Hroot)
                  (limit - 1)%nat item Hitem) as Hdepth.
    apply Hbound in Hdepth. lia.
Qed.

(** "Услуги" with "Веб-разработка" below it: rendering them nests three
    calls, the third one for the empty level below "Веб-разработка", and
    with room for two the rendering does not return. *)
Lemma render_menu_level_recursion_depth_witness :
  (∀ item n, depth [test_services; test_web] item n → (n + 2 ≤ 3)%nat)
  ∧ render_menu_level reverse_urls 2 (build_menu_tree [test_services; test_web])
      None None ∅ 0 = None.
Proof.
  split.
  - apply (render_menu_level_recursion_depth reverse_urls
             [test_services; test_web] None ∅ 3); [lia|].
    destruct (render_menu_level reverse_urls 3
                (build_menu_tree [test_services; test_web]) None None ∅ 0)
      as [html|] eqn:E; [by exists html | by vm_compute in E].
  - destruct (render_menu_level reverse_urls 2
                (build_menu_tree [test_services; test_web]) None None ∅ 0)
      as [html|] eqn:E; [exfalso | done].
    assert (depth [test_services; test_web] test_web 1) as Hdepth.
    { apply (depth_child _ test_web test_services 0);
        [right; left | left | reflexivity |].
      apply depth_root; [left | reflexivity]. }
    pose proof (proj1 (render_menu_level_recursion_depth reverse_urls
                         [test_services; test_web] None ∅ 2 ltac:(lia))
                      (ex_intro _ html E) test_web 1%nat Hdepth).
    lia.
Defined.

(** * The demonstration command *)

Lemma foldl_snoc {A} (l more : list A) :
  foldl (λ acc x, acc ++ [x]) l more = l ++ more.
Proof.
  revert l. induction more as [|x more IH]; intros l; simpl.
  - by rewrite app_nil_r.
  - rewrite IH. by rewrite <- (assoc_L (++)).
Qed.

Lemma demo_rows_of_sequence (menu first : Z) :
  demo_rows_of menu (λ k, Nat.iter k (λ pk, pk + 1) first) = demo_rows menu first.
Proof.
  unfold demo_rows_of, demo_rows. cbn [Nat.iter nat_rect].
  repeat (f_equal; try lia).
Qed.

Section DemoCommandFacts.

Variable style_SUCCESS style_WARNING : string → string.

(** The run of [handle] when no menu has the slug [main_menu]. *)
Lemma handle_created (env : Env) :
  find (λ m, bool_decide (slug m = "main_menu"))
       (menu_table (store_db (env_store env))) = None →
  let store := env_store env in
  let db := store_db store in
  let table := item_table db ++ demo_rows (next_menu_pk store) (next_item_pk store) in
  handle style_SUCCESS style_WARNING env
  = (tt,
     mkEnv
       (mkStore
          (mkDatabase
             (menu_table db ++ [mkMenu (next_menu_pk store) "Главное меню" "main_menu"])
             table)
          (next_menu_pk store + 1) (next_item_pk store + 10))
       (env_stdout env
        ++ [ "Создание демонстрационного меню...";
             style_SUCCESS ("✓ Создано меню " +:+ dq +:+ "Главное меню" +:+ dq) ]
        ++ demo_report style_SUCCESS
             (length (filter (λ r, r_menu_id r = next_menu_pk store) table)))).
Proof.
  intros Hfind. destruct env as [[[menus items] nm ni] out].
  cbn [env_store store_db menu_table item_table next_menu_pk next_item_pk env_stdout]
    in *.
  transitivity
    (tt,
     mkEnv
       (mkStore
          (mkDatabase
             (menus ++ [mkMenu nm "Главное меню" "main_menu"])
             (foldl (λ acc r, acc ++ [r]) items
                    (demo_rows_of nm (λ k, Nat.iter k (λ pk, pk + 1) ni))))
          (nm + 1) (Nat.iter 10 (λ pk, pk + 1) ni))
       (foldl (λ acc line, acc ++ [line]) out
          ([ "Создание демонстрационного меню...";
             style_SUCCESS ("✓ Создано меню " +:+ dq +:+ "Главное меню" +:+ dq) ]
           ++ demo_report style_SUCCESS
                (length (filter (λ r, r_menu_id r = nm)
                           (foldl (λ acc r, acc ++ [r]) items
                              (demo_rows_of nm
                                 (λ k, Nat.iter k (λ pk, pk + 1) ni)))))))).
  - lazy beta iota zeta delta
      [handle mbind command_bind stdout_write Menu_get_or_create env_store store_db
       menu_table env_stdout].
    rewrite Hfind. reflexivity.
  - rewrite !foldl_snoc, demo_rows_of_sequence.
    do 3 f_equal. cbn [Nat.iter nat_rect]. lia.
Qed.

(** The run of [handle] when the menu [m] has the slug [main_menu]. *)
Lemma handle_existing (env : Env) (m : Menu) :
  find (λ m, bool_decide (slug m = "main_menu"))
       (menu_table (store_db (env_store env))) = Some m →
  let store := env_store env in
  let db := store_db store in
  let table :=
    survivors (menu_pk m) (item_table db) ++ demo_rows (menu_pk m) (next_item_pk store) in
  handle style_SUCCESS style_WARNING env
  = (tt,
     mkEnv
       (mkStore (mkDatabase (menu_table db) table)
                (next_menu_pk store) (next_item_pk store + 10))
       (env_stdout env
        ++ [ "Создание демонстрационного меню...";
             style_WARNING ("⚠ Меню " +:+ dq +:+ "Главное меню" +:+ dq
                            +:+ " уже существует");
             "  Старые пункты меню удалены" ]
        ++ demo_report style_SUCCESS
             (length (filter (λ r, r_menu_id r = menu_pk m) table)))).
Proof.
  intros Hfind. destruct env as [[[menus items] nm ni] out].
  cbn [env_store store_db menu_table item_table next_menu_pk next_item_pk env_stdout]
    in *.
  transitivity
    (tt,
     mkEnv
       (mkStore
          (mkDatabase menus
             (foldl (λ acc r, acc ++ [r]) (survivors (menu_pk m) items)
                    (demo_rows_of (menu_pk m) (λ k, Nat.iter k (λ pk, pk + 1) ni))))
          nm (Nat.iter 10 (λ pk, pk + 1) ni))
       (foldl (λ acc line, acc ++ [line]) out
          ([ "Создание демонстрационного меню...";
             style_WARNING ("⚠ Меню " +:+ dq +:+ "Главное меню" +:+ dq
                            +:+ " уже существует");
             "  Старые пункты меню удалены" ]
           ++ demo_report style_SUCCESS
                (length (filter (λ r, r_menu_id r = menu_pk m)
                           (foldl (λ acc r, acc ++ [r]) (survivors (menu_pk m) items)
                              (demo_rows_of (menu_pk m)
                                 (λ k, Nat.iter k (λ pk, pk + 1) ni)))))))).
  - lazy beta iota zeta delta
      [handle mbind command_bind stdout_write Menu_get_or_create env_store store_db
       menu_table env_stdout].
    rewrite Hfind. reflexivity.
  - rewrite !foldl_snoc, demo_rows_of_sequence.
    do 3 f_equal. cbn [Nat.iter nat_rect]. lia.
Qed.

End DemoCommandFacts.

(** ** Lists, filters and keys *)

Lemma NoDup_fmap_elem_eq {A B} (f : A → B) (l : list A) (a b : A) :
  NoDup (f <$> l) → a ∈ l → b ∈ l → f a = f b → a = b.
Proof.
  intros Hnd Ha Hb Heq.
  apply list_elem_of_lookup in Ha as [i Hi].
  apply list_elem_of_lookup in Hb as [j Hj].
  assert (i = j) as <-; [|congruence].
  eapply NoDup_lookup; [exact Hnd|..]; rewrite list_lookup_fmap.
  - by rewrite Hi.
  - rewrite Hj. simpl. by rewrite Heq.
Qed.



Lemma find_slug_Some (menus : list Menu) (slug_ : string) (m : Menu) :
  find (λ m, bool_decide (slug m = slug_)) menus = Some m →
  m ∈ menus ∧ slug m = slug_.
Proof.
  intros H. apply find_some in H as [Hin Hs].
  split; [by apply list_elem_of_In | by apply bool_decide_eq_true in Hs].
Qed.

Lemma find_slug_None (menus : list Menu) (slug_ : string) (m : Menu) :
  find (λ m, bool_decide (slug m = slug_)) menus = None →
  m ∈ menus → slug m ≠ slug_.
Proof.
  intros H Hin Hs. apply list_elem_of_In in Hin.
  pose proof (find_none _ _ H _ Hin) as Hf. simpl in Hf.
  by apply bool_decide_eq_false in Hf.
Qed.

Lemma find_slug_snoc (menus : list Menu) (slug_ : string) (m : Menu) :
  find (λ m, bool_decide (slug m = slug_)) menus = None →
  slug m = slug_ →
  find (λ m, bool_decide (slug m = slug_)) (menus ++ [m]) = Some m.
Proof.
  intros Hnone Hs. induction menus as [|x menus IH]; simpl in *.
  - by rewrite bool_decide_eq_true_2.
  - destruct (bool_decide (slug x = slug_)); [done | by apply IH].
Qed.

(** ** Deleting the items of a menu *)

Lemma cascade_subseteq (rounds : nat) (table : list Row) (doomed : gset Z) :
  doomed ⊆ cascade rounds table doomed.
Proof.
  revert doomed. induction rounds as [|rounds IH]; intros doomed; [done|].
  simpl. etrans; [|apply IH]. apply union_subseteq_l.
Qed.

Lemma survivors_elem_of (menu : Z) (table : list Row) (r : Row) :
  r ∈ survivors menu table → r ∈ table ∧ r_menu_id r ≠ menu.
Proof.
  unfold survivors. intros Hr. apply list_elem_of_filter in Hr as [Hout Hin].
  split; [done|]. intros Hmenu. apply Hout.
  apply cascade_subseteq, elem_of_list_to_set, list_elem_of_fmap.
  exists r. split; [done|]. by apply list_elem_of_filter.
Qed.

(** Only doomed rows are collected. *)
Lemma cascade_sound (menu : Z) (table : list Row) (rounds : nat) (doomed : gset Z) :
  (∀ pk, pk ∈ doomed → ∃ r, r_id r = pk ∧ doomed_row menu table r) →
  ∀ pk, pk ∈ cascade rounds table doomed →
        ∃ r, r_id r = pk ∧ doomed_row menu table r.
Proof.
  revert doomed. induction rounds as [|rounds IH]; intros doomed Hinv; [done|].
  simpl. apply IH. intros pk Hpk.
  apply elem_of_union in Hpk as [Hpk | Hpk]; [by apply Hinv|].
  apply elem_of_list_to_set, list_elem_of_fmap in Hpk as (r & -> & Hr).
  apply list_elem_of_filter in Hr as [Hparent Hin].
  unfold parent_in in Hparent.
  destruct (r_parent_id r) as [ppk|] eqn:Hp; [|done].
  apply Hinv in Hparent as (rp & <- & Hrp).
  exists r. split; [done|]. by apply (doomed_child menu table r rp).
Qed.

(** A row whose parent chain stays outside the menu is not doomed. *)
Lemma parent_chain_not_doomed (db : Database) (menu : Z) (chain : list Row) :
  pk_unique db →
  parent_chain db chain →
  Forall (λ r, r_menu_id r ≠ menu) chain →
  ∀ r rest, chain = r :: rest → ¬ doomed_row menu (item_table db) r.
Proof.
  intros Hu Hchain.
  induction Hchain as [r0 Hin Hroot | r0 rp tail Hin Hparent Hchain IH];
    intros Hmenu r rest Heq Hdoomed; injection Heq as <- <-;
    apply Forall_cons in Hmenu as [Hm Hmenu].
  - destruct Hdoomed as [r Hr Hseed | r rp Hr Hp Hrp]; congruence.
  - destruct Hdoomed as [r Hr Hseed | r rp' Hr Hp Hrp]; [congruence|].
    apply (IH Hmenu rp tail eq_refl).
    assert (rp' = rp) as <-; [|done].
    apply (pk_unique_eq db); [done| |by eapply parent_chain_head|congruence].
    by destruct Hrp.
Qed.

Lemma survivors_keep_chain (db : Database) (menu : Z) (r : Row) (rest : list Row) :
  pk_unique db →
  parent_chain db (r :: rest) →
  Forall (λ r, r_menu_id r ≠ menu) (r :: rest) →
  r ∈ survivors menu (item_table db).
Proof.
  intros Hu Hchain Hmenu. unfold survivors. apply list_elem_of_filter.
  split; [|by eapply parent_chain_head].
  intros Hdoomed.
  apply (cascade_sound menu (item_table db)) in Hdoomed as (r' & Hid & Hr').
  - assert (r' = r) as ->.
    { apply (pk_unique_eq db); [done| |by eapply parent_chain_head|done].
      by destruct Hr'. }
    by apply (parent_chain_not_doomed db menu _ Hu Hchain Hmenu r rest).
  - intros pk Hpk.
    apply elem_of_list_to_set, list_elem_of_fmap in Hpk as (r0 & -> & Hr0).
    apply list_elem_of_filter in Hr0 as [Hm Hin].
    exists r0. split; [done|]. by constructor.
Qed.

(** ** The store after the command *)

Lemma demo_rows_elem_of (menu first : Z) (r : Row) :
  r ∈ demo_rows menu first →
  r_menu_id r = menu
  ∧ first ≤ r_id r < first + 10
  ∧ ∃ rest, ∀ db, (∀ x, x ∈ demo_rows menu first → x ∈ item_table db) →
                  parent_chain db (r :: rest).
Proof.
  intros Hr.
  assert (∀ db : Database, (∀ x, x ∈ demo_rows menu first → x ∈ item_table db) →
            parent_chain db
              [ mkRow (first + 2) menu None "Услуги" EmptyString "services" 2 ])
    as Hservices.
  { intros db Hdb. apply chain_root; [|reflexivity]. apply Hdb.
    unfold demo_rows. do 2 right; left. }
  assert (∀ db : Database, (∀ x, x ∈ demo_rows menu first → x ∈ item_table db) →
            parent_chain db
              [ mkRow (first + 4) menu (Some (first + 2)) "Веб-разработка"
                      "/services/web-development/" EmptyString 0;
                mkRow (first + 2) menu None "Услуги" EmptyString "services" 2 ])
    as Hweb.
  { intros db Hdb. eapply chain_step; [| |exact (Hservices db Hdb)]; [|reflexivity].
    apply Hdb. unfold demo_rows. do 4 right; left. }
  unfold demo_rows in Hr.
  repeat (apply elem_of_cons in Hr as [-> | Hr]); [..|by apply elem_of_nil in Hr];
    (split; [reflexivity|]); (split; [simpl; lia|]).
  - exists []. intros db Hdb. apply chain_root; [|reflexivity].
    apply Hdb. unfold demo_rows. left.
  - exists []. intros db Hdb. apply chain_root; [|reflexivity].
    apply Hdb. unfold demo_rows. right; left.
  - exists []. intros db Hdb. by apply Hservices.
  - exists []. intros db Hdb. apply chain_root; [|reflexivity].
    apply Hdb. unfold demo_rows. do 3 right; left.
  - eexists. intros db Hdb. by apply Hweb.
  - eexists. intros db Hdb. eapply chain_step; [| |exact (Hservices db Hdb)]; [|reflexivity].
    apply Hdb. unfold demo_rows. do 5 right; left.
  - eexists. intros db Hdb. eapply chain_step; [| |exact (Hservices db Hdb)]; [|reflexivity].
    apply Hdb. unfold demo_rows. do 6 right; left.
  - eexists. intros db Hdb. eapply chain_step; [| |exact (Hservices db Hdb)]; [|reflexivity].
    apply Hdb. unfold demo_rows. do 7 right; left.
  - eexists. intros db Hdb. eapply chain_step; [| |exact (Hweb db Hdb)]; [|reflexivity].
    apply Hdb. unfold demo_rows. do 8 right; left.
  - eexists. intros db Hdb. eapply chain_step; [| |exact (Hweb db Hdb)]; [|reflexivity].
    apply Hdb. unfold demo_rows. do 9 right; left.
Qed.

Lemma demo_rows_ids (menu first : Z) : NoDup (r_id <$> demo_rows menu first).
Proof.
  unfold demo_rows. simpl. apply NoDup_ListNoDup.
  repeat constructor; simpl; intuition lia.
Qed.

(** The constraints hold again when the demo rows are added to rows kept
    from a store that satisfied them. *)
Lemma store_ok_demo (store : Store) (menus' : list Menu) (base : list Row)
    (m : Menu) (next_menu' : Z) :
  store_ok store →
  (∀ x, x ∈ menus' → menu_pk x < next_menu') →
  NoDup (menu_pk <$> menus') →
  NoDup (slug <$> menus') →
  (∀ x, x ∈ menu_table (store_db store) → x ∈ menus') →
  m ∈ menus' →
  base `sublist_of` item_table (store_db store) →
  store_ok (mkStore (mkDatabase menus'
                                (base ++ demo_rows (menu_pk m) (next_item_pk store)))
                    next_menu' (next_item_pk store + 10)).
Proof.
  intros Hok Hpks Hmenu_nd Hslug_nd Hmenus Hm Hbase.
  assert (∀ r, r ∈ base → r ∈ item_table (store_db store)) as Hsub
    by (intros r Hr; by apply (elem_of_sublist base)).
  split; simpl; [done| | |  |done|done].
  - intros r Hr. apply elem_of_app in Hr as [Hr | Hr].
    + pose proof (ok_item_pks _ Hok r (Hsub r Hr)). lia.
    + apply demo_rows_elem_of in Hr as (_ & Hid & _). lia.
  - unfold pk_unique. simpl. rewrite fmap_app. apply NoDup_app. split; [|split].
    + eapply sublist_NoDup; [apply (ok_item_unique _ Hok)|]. by apply fmap_sublist.
    + intros pk Hold Hnew.
      apply list_elem_of_fmap in Hold as (r & -> & Hr).
      apply list_elem_of_fmap in Hnew as (r' & Heq & Hr').
      pose proof (ok_item_pks _ Hok r (Hsub r Hr)).
      apply demo_rows_elem_of in Hr' as (_ & Hid & _). lia.
    + apply demo_rows_ids.
  - intros r Hr. apply elem_of_app in Hr as [Hr | Hr].
    + destruct (ok_item_menu _ Hok r (Hsub r Hr)) as (x & Hx & Hpk).
      exists x. split; [by apply Hmenus | done].
    + apply demo_rows_elem_of in Hr as (Hmenu & _ & _). by exists m.
Qed.

Section DemoCommandResults.

Variable style_SUCCESS style_WARNING : string → string.

(** What every run of [handle] leaves, in terms of the menu [m] that carries
    the slug afterwards and of the old rows [base] that were kept. *)
Lemma handle_outcome (env : Env) :
  store_ok (env_store env) →
  ∃ m menus' base next_menu' lines,
    handle style_SUCCESS style_WARNING env
    = (tt,
       mkEnv
         (mkStore
            (mkDatabase menus'
               (base ++ demo_rows (menu_pk m) (next_item_pk (env_store env))))
            next_menu' (next_item_pk (env_store env) + 10))
         (env_stdout env ++ lines
          ++ demo_report style_SUCCESS
               (length (filter (λ r, r_menu_id r = menu_pk m)
                          (base ++ demo_rows (menu_pk m)
                                             (next_item_pk (env_store env)))))))
    ∧ find (λ m, bool_decide (slug m = "main_menu")) menus' = Some m
    ∧ store_ok (mkStore
                  (mkDatabase menus'
                     (base ++ demo_rows (menu_pk m) (next_item_pk (env_store env))))
                  next_menu' (next_item_pk (env_store env) + 10))
    ∧ (∀ r, r ∈ base → r ∈ item_table (store_db (env_store env))
                       ∧ r_menu_id r ≠ menu_pk m)
    ∧ (∀ r rest,
          parent_chain (store_db (env_store env)) (r :: rest) →
          Forall (λ x, r_menu_id x ≠ menu_pk m) (r :: rest) →
          r ∈ base)
    ∧ (∀ x, x ∈ menu_table (store_db (env_store env)) → x ∈ menus')
    ∧ (∀ r, r ∈ item_table (store_db (env_store env)) →
            (in_menu (store_db (env_store env)) "main_menu" r
             ↔ r_menu_id r = menu_pk m)).
Proof.
  intros Hok.
  destruct (find (λ m, bool_decide (slug m = "main_menu"))
                 (menu_table (store_db (env_store env)))) as [m|] eqn:Hfind.
  - exists m, (menu_table (store_db (env_store env))),
           (survivors (menu_pk m) (item_table (store_db (env_store env)))),
           (next_menu_pk (env_store env)).
    eexists. split; [by apply handle_existing|].
    pose proof Hfind as [Hm Hslug]%find_slug_Some.
    split; [done|]. split; [|split; [|split; [|split; [done|]]]].
    + apply store_ok_demo; try done; try apply Hok.
      unfold survivors. apply sublist_filter.
    + intros r Hr. by apply survivors_elem_of.
    + intros r rest Hchain Hout.
      by apply (survivors_keep_chain _ _ r rest); [apply Hok|..].
    + intros r Hr. unfold in_menu. rewrite Exists_exists. split.
      * intros (x & Hx & Hpk & Hs). rewrite <- Hpk. f_equal.
        apply (NoDup_fmap_elem_eq slug (menu_table (store_db (env_store env))));
          [apply Hok|done..|congruence].
      * intros Hpk. by exists m.
  - set (m := mkMenu (next_menu_pk (env_store env)) "Главное меню" "main_menu").
    exists m, (menu_table (store_db (env_store env)) ++ [m]),
           (item_table (store_db (env_store env))),
           (next_menu_pk (env_store env) + 1).
    eexists. split; [by apply handle_created|].
    split; [by apply find_slug_snoc|]. split; [|split; [|split; [|split]]].
    + apply store_ok_demo; try done.
      * intros x Hx. apply elem_of_app in Hx as [Hx | Hx].
        -- pose proof (ok_menu_pks _ Hok x Hx). lia.
        -- apply list_elem_of_singleton in Hx as ->. simpl. lia.
      * rewrite fmap_app. apply NoDup_app. split; [apply Hok|]. split.
        -- intros pk Hold Hnew. apply list_elem_of_singleton in Hnew as ->.
           apply list_elem_of_fmap in Hold as (x & Heq & Hx).
           pose proof (ok_menu_pks _ Hok x Hx). simpl in Heq. lia.
        -- apply NoDup_singleton.
      * rewrite fmap_app. apply NoDup_app. split; [apply Hok|]. split.
        -- intros s Hold Hnew. apply list_elem_of_singleton in Hnew as ->.
           apply list_elem_of_fmap in Hold as (x & Heq & Hx).
           by apply (find_slug_None _ _ x Hfind).
        -- apply NoDup_singleton.
      * intros x Hx. apply elem_of_app. by left.
      * apply elem_of_app. right. left.
    + intros r Hr. split; [done|].
      destruct (ok_item_menu _ Hok r Hr) as (x & Hx & Hpk).
      pose proof (ok_menu_pks _ Hok x Hx). simpl. lia.
    + intros r rest Hchain _. by eapply parent_chain_head.
    + intros x Hx. apply elem_of_app. by left.
    + intros r Hr. unfold in_menu. rewrite Exists_exists. split.
      * intros (x & Hx & _ & Hs). by destruct (find_slug_None _ _ x Hfind).
      * intros Hpk. destruct (ok_item_menu _ Hok r Hr) as (x & Hx & Hpk').
        pose proof (ok_menu_pks _ Hok x Hx). simpl in Hpk. lia.
Qed.

End DemoCommandResults.

Section DemoCommandProperties.

Variable style_SUCCESS style_WARNING : string → string.


(** X12. After [handle], [draw_menu] returns for the main menu at every
    request path and with every resolver: no demo item is on a parent
    cycle, whatever the store held before. *)
Theorem demo_menu_always_renders (env : Env) (reverse : string → option string)
    (context : option HttpRequest) (queries : nat) :
  store_ok (env_store env) →
  ∃ fuel value queries',
    draw_menu reverse fuel
      (store_db (env_store (handle style_SUCCESS style_WARNING env).2))
      context "main_menu" queries
    = Returned value queries'.
Proof.
  intros Hok.
  destruct (handle_outcome style_SUCCESS style_WARNING env Hok)
    as (m & menus' & base & next_menu' & lines & -> & Hfind & Hok' & Hbase & _).
  simpl. apply find_slug_Some in Hfind as [Hm Hslug].
  apply draw_menu_returns; [apply Hok'|].
  intros active Hactive.
  apply find_active_item_Some in Hactive as (before & after & Hsplit & _).
  assert (active ∈ fetch_items
            (mkDatabase menus'
               (base ++ demo_rows (menu_pk m) (next_item_pk (env_store env))))
            "main_menu") as Hin
    by (rewrite Hsplit, elem_of_app; right; left).
  apply fetch_items_elem in Hin as (r & Hr & Hmenu & ->). simpl in *.
  assert (r_menu_id r = menu_pk m) as Hpk.
  { unfold in_menu in Hmenu. simpl in Hmenu.
    apply Exists_exists in Hmenu as (x & Hx & Hpk & Hs). rewrite <- Hpk. f_equal.
    apply (NoDup_fmap_elem_eq slug menus'); [apply Hok'|done..|congruence]. }
  apply elem_of_app in Hr as [Hr | Hr]; [by destruct (Hbase r Hr)|].
  apply demo_rows_elem_of in Hr as (_ & _ & rest & Hchain).
  exists r, rest. split; [done|]. apply Hchain.
  intros x Hx. simpl. apply elem_of_app. by right.
Qed.


End DemoCommandProperties.

(** ** Instances for the command *)


Lemma cross_menu_store_ok : store_ok cross_menu_store.
Proof.
  split; simpl.
  - intros m Hm. repeat (apply elem_of_cons in Hm as [-> | Hm]); simpl; try lia.
    by apply elem_of_nil in Hm.
  - intros r Hr. repeat (apply elem_of_cons in Hr as [-> | Hr]); simpl; try lia.
    by apply elem_of_nil in Hr.
  - unfold pk_unique. simpl. apply NoDup_ListNoDup.
    repeat constructor; simpl; intuition discriminate.
  - intros r Hr. repeat (apply elem_of_cons in Hr as [-> | Hr]); simpl.
    + eexists. split; [left | reflexivity].
    + eexists. split; [right; left | reflexivity].
    + eexists. split; [left | reflexivity].
    + eexists. split; [left | reflexivity].
    + by apply elem_of_nil in Hr.
  - apply NoDup_ListNoDup. repeat constructor; simpl; intuition discriminate.
  - apply NoDup_ListNoDup. repeat constructor; simpl; intuition discriminate.
Qed.


(** The command on a store that already has a main menu with a stray item,
    then the tag at the path of a demo item of the third level. *)
Lemma demo_menu_always_renders_witness :
  ∃ fuel value queries',
    draw_menu reverse_urls fuel
      (store_db (env_store (handle (λ s, s) (λ s, s) (mkEnv cross_menu_store [])).2))
      (Some (mkRequest "/services/frontend/")) "main_menu" 0
    = Returned value queries'.
Proof.
  apply (demo_menu_always_renders (λ s, s) (λ s, s) (mkEnv cross_menu_store [])).
  exact cross_menu_store_ok.
Defined.

